(** * NS-API scrapper: a shallow embedding of [core/scrapper.py]

    The development follows the source file class by class:
    [Image], [Comm], [Episode], [Anime].  Python objects are records,
    methods are computations in a state-and-exception monad whose state
    holds the receiver ([self]), for an episode its parent anime, and the
    outside world (network history, log sink, file system).  Methods are
    named [Class_method].

    The modules [core.utils], [core.consts], [core.grabber] and [core.log]
    are imported by the source but are not part of it; what the scrapper
    uses from them is gathered in the classes [Utils] and [Net] below. *)

From Stdlib Require Import String Ascii ZArith List Lia.
From stdpp Require Import base gmap strings list sorting pretty.

(** ** Python strings *)

Module PyStr.

(** [s.startswith(p)] *)
Definition startswith (s p : string) : bool := String.prefix p s.

(** [s[::-1]] *)
Definition reversed (s : string) : string := String.rev s.

(** [sub in s] *)
Fixpoint contains (sub s : string) : bool :=
  String.prefix sub s ||
  match s with
  | EmptyString => false
  | String _ r => contains sub r
  end.

(** [s.split(sep)] for a non-empty separator: [skip] counts the characters
    of a separator just recognised that are still to be dropped, [cur] is
    the current piece, reversed. *)
Fixpoint split_go (sep : string) (skip : nat) (cur s : string) : list string :=
  match s with
  | EmptyString => [String.rev cur]
  | String c r =>
      match skip with
      | S k => split_go sep k cur r
      | O =>
          if String.prefix sep s
          then String.rev cur :: split_go sep (String.length sep - 1) EmptyString r
          else split_go sep 0 (String c cur) r
      end
  end.

Definition split (sep s : string) : list string := split_go sep 0 EmptyString s.

(** The white-space characters of [str.isspace] and [str.split(None)]:
    U+0009..U+000D, U+001C..U+0020, U+0085, U+00A0, U+1680,
    U+2000..U+200A, U+2028, U+2029, U+202F, U+205F and U+3000.  A string
    holds a Python [str] in UTF-8, one [ascii] per byte, so a white-space
    character is one, two or three bytes long; since no UTF-8 encoding is
    part of another, looking for these bytes at any position finds the
    characters and nothing else.  [space_width s] is the number of bytes
    of the white-space character that [s] starts with, and 0 when it
    starts with none. *)
Definition space_width (s : string) : nat :=
  match s with
  | EmptyString => 0
  | String b0 r =>
      let n0 := nat_of_ascii b0 in
      if ((9 <=? n0) && (n0 <=? 13)) || ((28 <=? n0) && (n0 <=? 32)) then 1
      else
        match r with
        | EmptyString => 0
        | String b1 r1 =>
            let n1 := nat_of_ascii b1 in
            (* U+0085, U+00A0 *)
            if (n0 =? 194) && ((n1 =? 133) || (n1 =? 160)) then 2
            else
              match r1 with
              | EmptyString => 0
              | String b2 _ =>
                  let n2 := nat_of_ascii b2 in
                  (* U+1680 *)
                  if (n0 =? 225) && (n1 =? 154) && (n2 =? 128) then 3
                  (* U+2000..U+200A, U+2028, U+2029, U+202F *)
                  else if (n0 =? 226) && (n1 =? 128)
                          && (((128 <=? n2) && (n2 <=? 138)) || (n2 =? 168)
                              || (n2 =? 169) || (n2 =? 175)) then 3
                  (* U+205F *)
                  else if (n0 =? 226) && (n1 =? 129) && (n2 =? 159) then 3
                  (* U+3000 *)
                  else if (n0 =? 227) && (n1 =? 128) && (n2 =? 128) then 3
                  else 0
              end
        end
  end.

(** [s.split(None)]: pieces between runs of white space, none empty.
    [skip] counts the bytes of a white-space character just recognised
    that are still to be dropped. *)
Fixpoint split_ws_go (skip : nat) (cur : option string) (s : string) : list string :=
  match s with
  | EmptyString => option_list (String.rev <$> cur)
  | String c r =>
      match skip with
      | S k => split_ws_go k cur r
      | O =>
          match space_width s with
          | S k => option_list (String.rev <$> cur) ++ split_ws_go k None r
          | O => split_ws_go 0 (Some (String c (default EmptyString cur))) r
          end
      end
  end.

Definition split_ws (s : string) : list string := split_ws_go 0 None s.

(** [s.replace(old, new, count)] for a non-empty [old]; [count = None] is
    Python's "all occurrences".  Both call sites of the source pass a
    non-empty literal for [old]. *)
Fixpoint replace_go (old new : string) (count : option nat) (skip : nat)
    (s : string) : string :=
  match s with
  | EmptyString => EmptyString
  | String c r =>
      match skip with
      | S k => replace_go old new count k r
      | O =>
          match count with
          | Some O => String c (replace_go old new count 0 r)
          | _ =>
              if String.prefix old s
              then new +:+ replace_go old new (Nat.pred <$> count)
                             (String.length old - 1) r
              else String c (replace_go old new count 0 r)
          end
      end
  end.

Definition replace (old new : string) (count : option nat) (s : string) : string :=
  replace_go old new count 0 s.

(** [str(index)] for an [int] *)
Definition str (z : Z) : string := pretty z.

(** ['0' * n] *)
Fixpoint zeros (n : nat) : string :=
  match n with
  | O => EmptyString
  | S k => String "0" (zeros k)
  end.

(** [s.zfill(width)]: pad on the left with zeros, after a leading sign. *)
Definition zfill (width : nat) (s : string) : string :=
  let pad := zeros (width - String.length s) in
  match s with
  | String c r =>
      if bool_decide (c = "+"%char) || bool_decide (c = "-"%char)
      then String c (pad +:+ r)
      else pad +:+ s
  | EmptyString => pad
  end.

(** [sep.join(parts)] *)
Definition join (sep : string) (parts : list string) : string :=
  String.concat sep parts.

End PyStr.

(** ** Python values shared by the classes *)

Definition bytes := list Byte.byte.

(** The exceptions that the modelled code can raise.  [FetchingErorr] is
    [consts.FetchingErorr(text, status_code)] (spelled as in the source);
    [ManifestEmpty] is the failure of quality resolution named by the
    specification; [UtilsError] stands for what a helper of [core.utils] may
    raise. *)
Inductive exn :=
| AttributeError (what : string)
| KeyError (key : string)
| IndexError
| ValueError
| UnboundLocalError (var : string)
| FetchingErorr (text : string) (status_code : Z)
| ManifestEmpty
| UtilsError (what : string).

Inductive result (A : Type) :=
| Ok (a : A)
| Raise (e : exn).
Arguments Ok {A} a.
Arguments Raise {A} e.

Global Instance exn_eq_dec : EqDecision exn.
Proof. solve_decision. Defined.

(** ** Rendered pages ([requests_html]) *)

(** An element of a rendered page, as the scrapper queries it: its text,
    its attributes, its absolute links (a Python set: listed here in the
    order in which [pop] hands them out) and, per CSS selector, the elements
    that [find] returns.  The page itself ([HTML]) answers the same
    queries. *)
#[local] Set Warnings "-register-all".
Inductive Element :=
| Elem (text : string) (attrs : gmap string string)
       (absolute_links : list string)
       (found : list (string * list Element)).

Module Element.
Definition text (e : Element) : string :=
  match e with Elem t _ _ _ => t end.
Definition attrs (e : Element) : gmap string string :=
  match e with Elem _ a _ _ => a end.
Definition absolute_links (e : Element) : list string :=
  match e with Elem _ _ l _ => l end.
Definition found (e : Element) : list (string * list Element) :=
  match e with Elem _ _ _ f => f end.

Fixpoint assoc (sel : string) (tbl : list (string * list Element)) : list Element :=
  match tbl with
  | [] => []
  | (k, v) :: rest => if bool_decide (k = sel) then v else assoc sel rest
  end.

(** [e.find(selector)] *)
Definition find (e : Element) (selector : string) : list Element :=
  assoc selector (found e).

(** [e.find(selector, first = True)]: the first match or [None]. *)
Definition find_first (e : Element) (selector : string) : option Element :=
  head (find e selector).
End Element.

Definition HTML := Element.

(** ** The outside world *)

Definition headers := list (string * string).

(** A [requests] response, with the attributes the scrapper reads. *)
Module Response.
Record t := mk {
  ok : bool;
  status_code : Z;
  text : string;
  content : bytes
}.
End Response.

(** A [requests_html] response: the same, with the page in [html]. *)
Module HTMLResponse.
Record t := mk {
  ok : bool;
  status_code : Z;
  content : bytes;
  html : HTML
}.
End HTMLResponse.

(** What the program does to the world, in the order it does it. *)
Inductive event :=
| EvPage (url : string)                    (* html_session.get(url), rendered *)
| EvGet (url : string) (hdrs : headers)    (* session.get(url, headers = ...) *)
| EvGrab (url : string)                    (* grabber.grab_request(url, True) *)
| EvCallback (i lenght : nat)              (* looping_callback(i, lenght) *)
| EvWrite (path : string) (content : bytes)
| EvSleep (secs : Z).

(** The log sink keeps what is reported through [log.err] and [log.warn].
    The information lines ([log.log]) only format values that are already
    bound and are left out, except in [Episode.get_provider], where the
    line reads a local that the [try] block may have left unbound. *)
Inductive level := WARN | ERR.

Record World := mkWorld {
  trace : list event;
  logs : list (level * string);
  files : gmap string bytes
}.

(** [core.utils] and [core.consts]: pure helpers and constants, taken as
    parameters.  [extract_manifest] is the provider-specific reading of a
    grabbed response into (quality level, URL) pairs. *)
Class Utils := {
  parse_name : string → string;
  format_name : string → string;
  complete_url : string → string;
  get_extension : string → string;
  get_episode_index : string → result Z;
  get_anime_from_episode_url : string → string;
  extract_manifest : string → list (Z * string);
  segments_headers : headers
}.

(** The servers behind [Comm.html_session], [Comm.session] and the grabber.
    Each answer may depend on everything the program did before (the
    trace), so a server may answer the same request differently over
    time.  [render] is what [req.html.render()] makes of a page. *)
Class Net := {
  html_session_get : list event → string → HTMLResponse.t;
  render : HTML → HTML;
  session_get : list event → string → headers → Response.t;
  grab : list event → string → bool → string
}.

(** ** The monad of methods *)

Definition M (S A : Type) : Type := S → result A * S.

Definition ret {S A} (a : A) : M S A := fun s => (Ok a, s).

Definition bind {S A B} (m : M S A) (k : A → M S B) : M S B :=
  fun s =>
    match m s with
    | (Ok a, s') => k a s'
    | (Raise e, s') => (Raise e, s')
    end.

Definition raise {S A} (e : exn) : M S A := fun s => (Raise e, s).

Definition get_state {S} : M S S := fun s => (Ok s, s).
Definition modify {S} (f : S → S) : M S unit := fun s => (Ok tt, f s).

Notation "x <- c1 ;; c2" := (bind c1 (fun x => c2))
  (at level 20, c1 at level 99, c2 at level 200, only parsing).
Notation "c1 ;; c2" := (bind c1 (fun _ => c2))
  (at level 100, c2 at level 200, right associativity, only parsing).

(** States that contain the world. *)
Class HasWorld (S : Type) := {
  world : S → World;
  with_world : World → S → S
}.

Global Instance World_HasWorld : HasWorld World := {|
  world w := w;
  with_world w _ := w
|}.

(** Run a computation on the world inside a larger state. *)
Definition io {S A} `{HasWorld S} (m : M World A) : M S A :=
  fun s =>
    let '(r, w) := m (world s) in (r, with_world w s).

Definition emit (e : event) : M World unit :=
  modify (fun w => mkWorld (trace w ++ [e]) (logs w) (files w)).

Definition log_at (l : level) (msg : string) : M World unit :=
  modify (fun w => mkWorld (trace w) (logs w ++ [(l, msg)]) (files w)).

(** [with open(path, 'wb') as f: f.write(content)] *)
Definition write_file (path : string) (content : bytes) : M World unit :=
  modify (fun w =>
    mkWorld (trace w ++ [EvWrite path content]) (logs w)
            (<[path := content]> (files w))).

(** [time.sleep(pause)] *)
Definition sleep (pause : Z) : M World unit := emit (EvSleep pause).

Section Requests.
Context `{Net}.

(** [html_session.get(url)] followed by [req.html.render()] *)
Definition html_get_rendered (url : string) : M World HTMLResponse.t :=
  fun w =>
    let req := html_session_get (trace w) url in
    let req := HTMLResponse.mk (HTMLResponse.ok req) (HTMLResponse.status_code req)
                 (HTMLResponse.content req) (render (HTMLResponse.html req)) in
    (Ok req, mkWorld (trace w ++ [EvPage url]) (logs w) (files w)).

(** [session.get(url, headers = hdrs)] *)
Definition get_url (url : string) (hdrs : headers) : M World Response.t :=
  fun w =>
    (Ok (session_get (trace w) url hdrs),
     mkWorld (trace w ++ [EvGet url hdrs]) (logs w) (files w)).

(** [grabber.grab_request(url, True)] *)
Definition grab_request (url : string) (flag : bool) : M World string :=
  fun w =>
    (Ok (grab (trace w) url flag),
     mkWorld (trace w ++ [EvGrab url]) (logs w) (files w)).
End Requests.

(** ** class Comm *)

Section Comm.
Context `{Net}.

Definition Comm_get_dyna (url : string) : M World HTML :=
  req <- html_get_rendered url ;;
  (if negb (HTMLResponse.ok req)
   then log_at ERR "Failed to load page"
   else ret tt) ;;
  ret (HTMLResponse.html req).
End Comm.

(** ** Locals of a [try] block *)

(** Reading a local variable that the [try] block may not have bound. *)
Definition local {S A} (name : string) (v : option A) : M S A :=
  match v with
  | Some x => ret x
  | None => raise (UnboundLocalError name)
  end.

(** [except Exception as e: self.log.err(msg, e.args)] *)
Definition except {S} `{HasWorld S} (failure : option exn) (msg : string) : M S unit :=
  match failure with
  | Some _ => io (log_at ERR msg)
  | None => ret tt
  end.

Definition NL : string := String (ascii_of_nat 10) EmptyString.

(** ** class Image *)

Module Image.
Record t := mk {
  raw : bytes;
  ext : string;
  url : string
}.
End Image.

Section Image.
Context `{Utils}.

(** [Image(raw, url = src)]: [__post_init__] reads the extension off the
    address. *)
Definition Image_new (raw : bytes) (url : string) : Image.t :=
  Image.mk raw (get_extension url) url.

(** [Image.download(path, ext)] *)
Definition Image_download (self : Image.t) (path : string) (ext : bool) : M World unit :=
  let path := if ext then path +:+ "." +:+ Image.ext self else path in
  write_file path (Image.raw self).
End Image.

(** ** The objects *)

Module Episode.
Record t := mk {
  url : string;
  raw_name : string;
  name : string;
  (* dynamic attributes *)
  picture : option Image.t;
  poster : option Image.t;
  tags : option (gmap string string);
  data : option (gmap string string);
  provider : option string;
  (* episode page cache *)
  cache : option HTML
}.

Definition set_provider (v : option string) (e : t) : t :=
  mk (url e) (raw_name e) (name e) (picture e) (poster e) (tags e) (data e)
     v (cache e).
Definition set_cache (v : option HTML) (e : t) : t :=
  mk (url e) (raw_name e) (name e) (picture e) (poster e) (tags e) (data e)
     (provider e) v.
End Episode.

(** What [Anime.tags] can hold: the dictionary, or the elements found when
    the comprehension that builds the dictionary failed after [tags] had
    been bound to them. *)
Inductive TagsValue :=
| TagElems (items : list Element)
| TagDict (d : gmap string string).

Module Anime.
Record t := mk {
  url : string;
  raw_name : string;
  name : string;
  (* generated when called *)
  synopsis : option string;
  data : option (gmap string string);
  picture : option Image.t;
  poster : option Image.t;
  tags : option TagsValue;
  episodes : option (list Episode.t);
  (* page cache *)
  cache : option HTML
}.

Definition set_synopsis (v : option string) (a : t) : t :=
  mk (url a) (raw_name a) (name a) v (data a) (picture a) (poster a)
     (tags a) (episodes a) (cache a).
Definition set_data (v : option (gmap string string)) (a : t) : t :=
  mk (url a) (raw_name a) (name a) (synopsis a) v (picture a) (poster a)
     (tags a) (episodes a) (cache a).
Definition set_tags (v : option TagsValue) (a : t) : t :=
  mk (url a) (raw_name a) (name a) (synopsis a) (data a) (picture a)
     (poster a) v (episodes a) (cache a).
Definition set_episodes (v : option (list Episode.t)) (a : t) : t :=
  mk (url a) (raw_name a) (name a) (synopsis a) (data a) (picture a)
     (poster a) (tags a) v (cache a).
Definition set_cache (v : option HTML) (a : t) : t :=
  mk (url a) (raw_name a) (name a) (synopsis a) (data a) (picture a)
     (poster a) (tags a) (episodes a) v.
End Anime.

(** The value of an attribute read through [__getattribute__]. *)
Inductive Value :=
| VNone
| VStr (s : string)
| VDict (d : gmap string string)
| VImage (i : Image.t)
| VTags (t : TagsValue)
| VEpisodes (l : list Episode.t)
| VHTML (page : HTML).

Definition value_of {A} (inj : A → Value) (o : option A) : Value :=
  match o with
  | Some a => inj a
  | None => VNone
  end.

(** State of a method of [Anime]: the receiver and the world. *)
Record AnimeSt := mkAnimeSt {
  a_self : Anime.t;
  a_world : World
}.

(** State of a method of [Episode]: the receiver, the anime it points back
    to ([self.anime], shared with every other episode of that anime), and
    the world.  [self.comm] is the anime's, that is, the world. *)
Record EpisodeSt := mkEpisodeSt {
  e_self : Episode.t;
  e_anime : Anime.t;
  e_world : World
}.

Global Instance AnimeSt_HasWorld : HasWorld AnimeSt := {|
  world := a_world;
  with_world w s := mkAnimeSt (a_self s) w
|}.

Global Instance EpisodeSt_HasWorld : HasWorld EpisodeSt := {|
  world := e_world;
  with_world w s := mkEpisodeSt (e_self s) (e_anime s) w
|}.

(** A method of [self.anime] called from an episode. *)
Definition in_anime {A} (m : M AnimeSt A) : M EpisodeSt A :=
  fun s =>
    let '(r, s') := m (mkAnimeSt (e_anime s) (e_world s)) in
    (r, mkEpisodeSt (e_self s) (a_self s') (a_world s')).

(** A method of [episode] called from its anime.  The episode object after
    the call is not written back into the list it came from: nothing below
    reads it again. *)
Definition in_episode {A} (episode : Episode.t) (m : M EpisodeSt A) : M AnimeSt A :=
  fun s =>
    let '(r, s') := m (mkEpisodeSt episode (a_self s) (a_world s)) in
    (r, mkAnimeSt (e_anime s') (e_world s')).

Definition a_update (f : Anime.t → Anime.t) : M AnimeSt unit :=
  modify (fun s => mkAnimeSt (f (a_self s)) (a_world s)).
Definition e_update (f : Episode.t → Episode.t) : M EpisodeSt unit :=
  modify (fun s => mkEpisodeSt (f (e_self s)) (e_anime s) (e_world s)).

(** ** Quality resolution *)

(** [consts.Quality]: the symbolic tokens, or a literal quality level. *)
Inductive Quality :=
| BEST
| WORST
| MIDDLE
| Level (q : Z).

Definition level_le (a b : Z * string) : Prop := (a.1 ≤ b.1)%Z.

Global Instance level_le_dec : RelDecision level_le.
Proof. intros a b. unfold level_le. apply _. Defined.

(** The entry nearest to [q] in a list scanned by ascending level: a later
    entry replaces the current one only when it is strictly nearer, so that
    of two entries at the same distance the one of lower level stays. *)
Fixpoint nearest (q : Z) (best : Z * string) (rest : list (Z * string)) : Z * string :=
  match rest with
  | [] => best
  | e :: rest' =>
      nearest q (if (Z.abs (e.1 - q) <? Z.abs (best.1 - q))%Z then e else best) rest'
  end.

(** Modelled from the spec: [utils.parse_qualities] is not in the sources
    (only its call in [Episode.download] is).  Section 4.3: sort the
    manifest entries by quality level ascending; [best] is the entry with
    the maximum level, [worst] the one with the minimum level, [middle]
    the entry at the midpoint index of the sorted list, fixed to the
    lower middle, a number the entry whose level has the smallest absolute
    distance to it, ties broken toward the lower level; an empty manifest
    is reported as [ManifestEmpty]. *)
Definition resolve_quality (manifest : list (Z * string)) (quality : Quality) : result string :=
  let sorted := merge_sort level_le manifest in
  match sorted with
  | [] => Raise ManifestEmpty
  | first :: rest =>
      match quality with
      | BEST => Ok (List.last sorted first).2
      | WORST => Ok first.2
      | MIDDLE => Ok (nth ((length sorted - 1) / 2) sorted first).2
      | Level q => Ok (nearest q first rest).2
      end
  end.

Section Quality.
Context `{Utils}.

(** [utils.parse_qualities(raw, quality)]: the manifest is read off the
    grabbed response by the provider-specific extraction, then resolved. *)
Definition parse_qualities {S} (raw : string) (quality : Quality) : M S string :=
  match resolve_quality (extract_manifest raw) quality with
  | Ok url => ret url
  | Raise e => raise e
  end.
End Quality.

(** Modelled from the spec: [utils.bar] is not in the sources.  It wraps the
    list that the download loop iterates over (section 4.4, step 5: for
    each segment in order); the progress display it draws is not part of
    the model. *)
Definition bar {A} (title : string) (items : list A) : list A := items.

(** [list(enumerate(l))], counting from [i]. *)
Fixpoint enumerate_from {A} (i : nat) (l : list A) : list (nat * A) :=
  match l with
  | [] => []
  | x :: l' => (i, x) :: enumerate_from (S i) l'
  end.

Definition enumerate {A} (l : list A) : list (nat * A) := enumerate_from 0 l.

(** ** class Anime, first part: pages and derived fields *)

Section AnimeFields.
Context `{Utils} `{Net}.

(** [Episode(url, anime)]: the back reference is the state the episode's
    methods run in. *)
Definition Episode_new (url : string) : Episode.t :=
  let raw_name := parse_name url in
  Episode.mk url raw_name (format_name raw_name) None None None None None None.

(** [Anime(url, comm)] *)
Definition Anime_new (url : string) : Anime.t :=
  let raw_name := parse_name url in
  Anime.mk url raw_name (format_name raw_name) None None None None None None None.

(** [Comm.get_anime(url)]: a fresh anime, in the world of this [Comm]. *)
Definition Comm_get_anime (url : string) (w : World) : AnimeSt :=
  mkAnimeSt (Anime_new (complete_url url)) w.

(** [Episode.from_url(url, comm)]: a fresh episode with a fresh parent. *)
Definition Episode_from_url (url : string) (w : World) : EpisodeSt :=
  mkEpisodeSt (Episode_new url) (Anime_new (get_anime_from_episode_url url)) w.

Definition Anime_get_page (cache force : bool) : M AnimeSt HTML :=
  s <- get_state ;;
  page <- match Anime.cache (a_self s), force with
          | Some cached, false => ret cached
          | _, _ => io (Comm_get_dyna (Anime.url (a_self s)))
          end ;;
  (if cache then a_update (Anime.set_cache (Some page)) else ret tt) ;;
  ret page.

Definition Anime_get_synopsis (cache force : bool) : M AnimeSt string :=
  page <- Anime_get_page cache force ;;
  (* try: syn = page.find('.synopsis', first = 1).text *)
  let '(syn, failure) :=
    match Element.find_first page ".synopsis" with
    | Some el => (Some (Element.text el), None)
    | None => (None, Some (AttributeError "text"))
    end in
  except failure "Failed to get data" ;;
  syn <- local "syn" syn ;;
  a_update (Anime.set_synopsis (Some syn)) ;;
  ret syn.

(** The loop of [get_data]: [k, *v = raw.split(...)] and
    [data[k] = ' '.join(v)] for each element, until one fails. *)
Fixpoint parse_data (elements : list Element) (data : gmap string string)
    : gmap string string * option exn :=
  match elements with
  | [] => (data, None)
  | el :: rest =>
      let raw := Element.text el in
      match (if PyStr.contains NL raw then PyStr.split NL raw
             else PyStr.split_ws raw) with
      | [] => (data, Some ValueError)
      | k :: v => parse_data rest (<[k := PyStr.join " " v]> data)
      end
  end.

Definition Anime_get_data (cache force : bool) : M AnimeSt (gmap string string) :=
  page <- Anime_get_page cache force ;;
  let elements := Element.find page "#anime-info-list .item" in
  let '(data, failure) := parse_data elements ∅ in
  except failure "Failed to get data" ;;
  a_update (Anime.set_data (Some data)) ;;
  ret data.

Definition Anime_get_picture (cache force : bool) : M AnimeSt Image.t :=
  page <- Anime_get_page cache force ;;
  (* try: src = page.find('.loading', first = True).attrs['src']
          raw = self.comm.session.get(src).content *)
  locals <- match Element.find_first page ".loading" with
            | None =>
                except (Some (AttributeError "attrs")) "Failed to get picture" ;;
                ret (None, None)
            | Some el =>
                match Element.attrs el !! "src" with
                | None =>
                    except (Some (KeyError "src")) "Failed to get picture" ;;
                    ret (None, None)
                | Some src =>
                    r <- io (get_url src []) ;;
                    ret (Some src, Some (Response.content r))
                end
            end ;;
  raw <- local "raw" (locals.2) ;;
  src <- local "src" (locals.1) ;;
  ret (Image_new raw src).

(** [style.split('url(')[1].split(')')[0]] *)
Definition poster_src (style : string) : option string :=
  match PyStr.split "url(" style with
  | _ :: after :: _ => head (PyStr.split ")" after)
  | _ => None
  end.

Definition Anime_get_poster (cache force : bool) : M AnimeSt Image.t :=
  page <- Anime_get_page cache force ;;
  let '(src, failure) :=
    match Element.find_first page "#head" with
    | None => (None, Some (AttributeError "attrs"))
    | Some el =>
        match Element.attrs el !! "style" with
        | None => (None, Some (KeyError "style"))
        | Some style =>
            match poster_src style with
            | None => (None, Some IndexError)
            | Some src => (Some src, None)
            end
        end
    end in
  except failure "Failed to get poster" ;;
  src <- local "src" src ;;
  r <- io (get_url src []) ;;
  ret (Image_new (Response.content r) src).

(** [{t.text: utils.complete_url(t.attrs['href']) for t in tags}]; [None]
    when some [t] has no [href]. *)
Fixpoint tags_dict (items : list Element) (d : gmap string string)
    : option (gmap string string) :=
  match items with
  | [] => Some d
  | t :: rest =>
      match Element.attrs t !! "href" with
      | None => None
      | Some href => tags_dict rest (<[Element.text t := complete_url href]> d)
      end
  end.

Definition Anime_get_tags (cache force : bool) : M AnimeSt TagsValue :=
  page <- Anime_get_page cache force ;;
  let '(tags, failure) :=
    match Element.find_first page ".tag" with
    | None => (None, Some (AttributeError "find"))
    | Some el =>
        let items := Element.find el "item" in
        match tags_dict items ∅ with
        | Some d => (Some (TagDict d), None)
        | None => (Some (TagElems items), Some (KeyError "href"))
        end
    end in
  except failure "Failed to get tags" ;;
  tags <- local "tags" tags ;;
  a_update (Anime.set_tags (Some tags)) ;;
  ret tags.

(** [list({ep.absolute_links.pop() for ep in objects if ep.absolute_links})]
    followed by [episodes.sort()]. *)
Definition episode_urls (objects : list Element) : list string :=
  let links : gset string :=
    list_to_set (omap (fun ep => head (Element.absolute_links ep)) objects) in
  merge_sort String.le (elements links).

(** The filtering loop of [get_episodes]. *)
Fixpoint filter_episodes (filter : Z → bool) (episodes : list string)
    (filtered : list Episode.t) : list Episode.t * option exn :=
  match episodes with
  | [] => (filtered, None)
  | ep :: rest =>
      match get_episode_index ep with
      | Raise e => (filtered, Some e)
      | Ok i =>
          filter_episodes filter rest
            (if filter i then filtered ++ [Episode_new ep] else filtered)
      end
  end.

Definition Anime_get_episodes (filter : option (Z → bool)) (cache force : bool)
    : M AnimeSt (list Episode.t) :=
  page <- Anime_get_page cache force ;;
  let objects := Element.find page ".js-list-episode-container *" in
  let episodes := episode_urls objects in
  let '(filtered, failure) :=
    match filter with
    | Some f => filter_episodes f episodes []
    | None => (Episode_new <$> episodes, None)
    end in
  except failure "Failed to get episodes" ;;
  a_update (Anime.set_episodes (Some filtered)) ;;
  ret filtered.

(** The address that [get_episode] builds. *)
Definition episode_url (url : string) (index : Z) : string :=
  let i := PyStr.reversed ("-" +:+ PyStr.zfill 2 (PyStr.str index) +:+ "_") in
  let ep_url := PyStr.replace "/info/" "/episode/" None url in
  (* Replace last `_` char. *)
  PyStr.reversed (PyStr.replace "_" i (Some 1) (PyStr.reversed ep_url)).

Definition Anime_get_episode (index : Z) : M AnimeSt Episode.t :=
  s <- get_state ;;
  ret (Episode_new (episode_url (Anime.url (a_self s)) index)).

(** [EpisodeIterable.__getitem__]: [if 1: return self.anime.get_episode(index)] *)
Definition EpisodeIterable_getitem (index : Z) : M AnimeSt Episode.t :=
  Anime_get_episode index.

(** [super().__getattribute__(name)] on the data attributes. *)
Definition Anime_dict (self : Anime.t) (name : string) : option Value :=
  if bool_decide (name = "url") then Some (VStr (Anime.url self))
  else if bool_decide (name = "raw_name") then Some (VStr (Anime.raw_name self))
  else if bool_decide (name = "name") then Some (VStr (Anime.name self))
  else if bool_decide (name = "synopsis") then Some (value_of VStr (Anime.synopsis self))
  else if bool_decide (name = "data") then Some (value_of VDict (Anime.data self))
  else if bool_decide (name = "picture") then Some (value_of VImage (Anime.picture self))
  else if bool_decide (name = "poster") then Some (value_of VImage (Anime.poster self))
  else if bool_decide (name = "tags") then Some (value_of VTags (Anime.tags self))
  else if bool_decide (name = "episodes") then Some (value_of VEpisodes (Anime.episodes self))
  else if bool_decide (name = "cache") then Some (value_of VHTML (Anime.cache self))
  else None.

(** [eval(f'self.get_{name}')()]: the resolver of that name, called with
    its default arguments. *)
Definition Anime_resolver (name : string) : M AnimeSt Value :=
  if bool_decide (name = "synopsis") then v <- Anime_get_synopsis true false ;; ret (VStr v)
  else if bool_decide (name = "data") then v <- Anime_get_data true false ;; ret (VDict v)
  else if bool_decide (name = "picture") then v <- Anime_get_picture true false ;; ret (VImage v)
  else if bool_decide (name = "poster") then v <- Anime_get_poster true false ;; ret (VImage v)
  else if bool_decide (name = "tags") then v <- Anime_get_tags true false ;; ret (VTags v)
  else if bool_decide (name = "episodes") then v <- Anime_get_episodes None true false ;; ret (VEpisodes v)
  else raise (AttributeError ("get_" +:+ name)).

Definition Anime_auto : list string :=
  ["synopsis"; "data"; "picture"; "poster"; "tags"; "episodes"].

(** [Anime.__getattribute__]: reading [anime.<name>]. *)
Definition Anime_getattribute (name : string) : M AnimeSt Value :=
  s <- get_state ;;
  value <- match Anime_dict (a_self s) name with
           | Some v => ret v
           | None => raise (AttributeError name)
           end ;;
  (* static attributes *)
  if negb (bool_decide (name ∈ Anime_auto)) then ret value
  else
    match value with
    | VNone =>
        (* attributes to generate *)
        (if bool_decide (name = "episodes")
         then io (log_at WARN "Deprecated attribute")
         else ret tt) ;;
        Anime_resolver name
    | _ => ret value  (* attributes already generated *)
    end.
End AnimeFields.

(** ** class Episode *)

Section EpisodeMethods.
Context `{Utils} `{Net}.

Definition Episode_get_page (cache force : bool) : M EpisodeSt HTML :=
  s <- get_state ;;
  page <- match Episode.cache (e_self s), force with
          | Some cached, false => ret cached
          | _, _ => io (Comm_get_dyna (Episode.url (e_self s)))
          end ;;
  (if cache then e_update (Episode.set_cache (Some page)) else ret tt) ;;
  ret page.

(** The loop of [get_picture] over the thumbnails of the parent's page.
    [Some image] is the [return] inside the loop; [None] is the end of the
    loop, or the [except] clause after its error line. *)
Fixpoint picture_loop (url : string) (thumbnails : list Element)
    : M EpisodeSt (option Image.t) :=
  match thumbnails with
  | [] => ret None
  | thumbnail :: rest =>
      match Element.find_first thumbnail "a" with
      | None =>
          except (Some (AttributeError "attrs")) "Failed to get picture" ;;
          ret None
      | Some a =>
          match Element.attrs a !! "href" with
          | None =>
              except (Some (KeyError "href")) "Failed to get picture" ;;
              ret None
          | Some href =>
              if negb (bool_decide (complete_url href = url))
              then picture_loop url rest
              else
                match Element.find_first thumbnail "img" with
                | None =>
                    except (Some (AttributeError "attrs")) "Failed to get picture" ;;
                    ret None
                | Some i =>
                    match Element.attrs i !! "src" with
                    | None =>
                        except (Some (KeyError "src")) "Failed to get picture" ;;
                        ret None
                    | Some src =>
                        r <- io (get_url src []) ;;
                        ret (Some (Image_new (Response.content r) src))
                    end
                end
          end
      end
  end.

Definition Episode_get_picture (cache force : bool) : M EpisodeSt (option Image.t) :=
  page <- in_anime (Anime_get_page cache force) ;;
  let thumbnails := Element.find page ".js-list-episode-container .holder" in
  s <- get_state ;;
  found <- picture_loop (Episode.url (e_self s)) thumbnails ;;
  match found with
  | Some image => ret (Some image)
  | None => io (log_at ERR "Episode vanished from parent") ;; ret None
  end.

(** [provider.split('//')[1].split('/')[0]] *)
Definition provider_name_of (provider : string) : option string :=
  match PyStr.split "//" provider with
  | _ :: after :: _ => head (PyStr.split "/" after)
  | _ => None
  end.

Definition Episode_get_provider (cache force : bool) : M EpisodeSt string :=
  page <- Episode_get_page cache force ;;
  let '(provider, provider_name, failure) :=
    match Element.find_first page "#display-player iframe" with
    | None => (None, None, Some (AttributeError "attrs"))
    | Some el =>
        match Element.attrs el !! "src" with
        | None => (None, None, Some (KeyError "src"))
        | Some provider =>
            match provider_name_of provider with
            | None => (Some provider, None, Some IndexError)
            | Some provider_name => (Some provider, Some provider_name, None)
            end
        end
    end in
  except failure "Failed to get provider" ;;
  (* the log line formats provider_name *)
  _ <- local "provider_name" provider_name ;;
  provider <- local "provider" provider ;;
  e_update (Episode.set_provider (Some provider)) ;;
  ret provider.

(** [super().__getattribute__(name)] on the data attributes. *)
Definition Episode_dict (self : Episode.t) (name : string) : option Value :=
  if bool_decide (name = "url") then Some (VStr (Episode.url self))
  else if bool_decide (name = "raw_name") then Some (VStr (Episode.raw_name self))
  else if bool_decide (name = "name") then Some (VStr (Episode.name self))
  else if bool_decide (name = "picture") then Some (value_of VImage (Episode.picture self))
  else if bool_decide (name = "poster") then Some (value_of VImage (Episode.poster self))
  else if bool_decide (name = "tags") then Some (value_of VDict (Episode.tags self))
  else if bool_decide (name = "data") then Some (value_of VDict (Episode.data self))
  else if bool_decide (name = "provider") then Some (value_of VStr (Episode.provider self))
  else if bool_decide (name = "cache") then Some (value_of VHTML (Episode.cache self))
  else None.

(** [eval(f'self.get_{name}')()]: the class defines [get_picture] and
    [get_provider] only. *)
Definition Episode_resolver (name : string) : M EpisodeSt Value :=
  if bool_decide (name = "picture")
  then v <- Episode_get_picture true false ;; ret (value_of VImage v)
  else if bool_decide (name = "provider")
  then v <- Episode_get_provider true false ;; ret (VStr v)
  else raise (AttributeError ("get_" +:+ name)).

Definition Episode_auto : list string :=
  ["picture"; "poster"; "tags"; "data"; "provider"].

(** [Episode.__getattribute__]: reading [episode.<name>]. *)
Definition Episode_getattribute (name : string) : M EpisodeSt Value :=
  s <- get_state ;;
  value <- match Episode_dict (e_self s) name with
           | Some v => ret v
           | None => raise (AttributeError name)
           end ;;
  if negb (bool_decide (name ∈ Episode_auto)) then ret value
  else
    match value with
    | VNone => Episode_resolver name
    | _ => ret value
    end.

(** The progress callback is code of the caller, run in the same world. *)
Definition callback := nat → nat → M World unit.

(** [[s for s in res.split('\n') if s.startswith('https://')]] *)
Definition segments_of (res : string) : list string :=
  List.filter (fun s => PyStr.startswith s "https://") (PyStr.split NL res).

(** The download loop: fetch, check, report progress, append. *)
Fixpoint fetch_segments (looping_callback : option callback) (lenght : nat)
    (items : list (nat * string)) (content : bytes) : M World bytes :=
  match items with
  | [] => ret content
  | (i, link) :: rest =>
      segment <- get_url link [] ;;
      (* error protection *)
      if negb (Response.ok segment)
      then raise (FetchingErorr (Response.text segment) (Response.status_code segment))
      else
        match looping_callback with
        | Some f => f i lenght
        | None => ret tt
        end ;;
        fetch_segments looping_callback lenght rest (content ++ Response.content segment)
  end.

(** [Episode.download], up to the address of the playlist: provider,
    grabbed response, quality. *)
Definition resolve_playlist (quality : Quality) : M EpisodeSt string :=
  provider_url <- Episode_get_provider true false ;;
  raw <- io (grab_request provider_url true) ;;
  parse_qualities raw quality.

(** [Episode.download], from [# Fetch segments] on. *)
Definition download_playlist (url path : string) (ext : bool)
    (looping_callback : option callback) : M World string :=
  res <- get_url url segments_headers ;;
  let segments := segments_of (Response.text res) in
  let lenght := length segments in
  content <- fetch_segments looping_callback lenght
               (bar "Fetching" (enumerate segments)) [] ;;
  (* write to file *)
  let path := if ext then path +:+ ".mp4" else path in
  write_file path content ;;
  ret path.

Definition Episode_download (path : string) (quality : Quality) (ext : bool)
    (looping_callback : option callback) : M EpisodeSt string :=
  url <- resolve_playlist quality ;;
  io (download_playlist url path ext looping_callback).
End EpisodeMethods.

(** ** class Anime, second part: the batch download *)

Section AnimeDownload.
Context `{Utils} `{Net}.

(** [path[-1]] *)
Fixpoint last_char (s : string) : option ascii :=
  match s with
  | EmptyString => None
  | String c EmptyString => Some c
  | String _ r => last_char r
  end.

(** The loop of [Anime.download]. *)
Fixpoint download_episodes (path : string) (pause : Z) (quality : Quality)
    (episodes : list Episode.t) (pathes : list string) : M AnimeSt (list string) :=
  match episodes with
  | [] => ret pathes
  | episode :: rest =>
      let ep_path := path +:+ Episode.raw_name episode +:+ ".mp4" in
      in_episode episode (Episode_download ep_path quality false None) ;;
      let pathes := pathes ++ [ep_path] in
      (* timeout *)
      io (sleep pause) ;;
      download_episodes path pause quality rest pathes
  end.

Definition Anime_download (path : string) (pause : Z) (quality : Quality)
    : M AnimeSt (list string) :=
  (* if not path[-1] in '/\\': path += '/' *)
  path <- match last_char path with
          | None => raise IndexError
          | Some c =>
              if bool_decide (c = "/"%char) || bool_decide (c = "\"%char)
              then ret path
              else ret (path +:+ "/")
          end ;;
  episodes <- Anime_get_episodes None true false ;;
  download_episodes path pause quality episodes [].
End AnimeDownload.

(** ** Vocabulary of the statements *)

(** A callback that only records that it was called, and with what. *)
Definition observer : callback := fun i lenght => emit (EvCallback i lenght).

(** The events of the download loop over [items], with or without a
    recording callback. *)
Fixpoint seg_events (cb : bool) (lenght : nat) (items : list (nat * string)) : list event :=
  match items with
  | [] => []
  | (i, link) :: rest =>
      EvGet link [] :: (if cb then [EvCallback i lenght] else [])
        ++ seg_events cb lenght rest
  end.

(** The answers of the server to the fetches of that loop, when the loop
    starts after the history [t]. *)
Fixpoint seg_responses `{Net} (cb : bool) (lenght : nat) (t : list event)
    (items : list (nat * string)) : list Response.t :=
  match items with
  | [] => []
  | (i, link) :: rest =>
      session_get t link []
        :: seg_responses cb lenght
             (t ++ EvGet link [] :: (if cb then [EvCallback i lenght] else [])) rest
  end.

Definition callback_of (cb : bool) : option callback :=
  if cb then Some observer else None.

(** The arguments of the recorded calls of the callback, in order. *)
Definition callbacks (evs : list event) : list (nat * nat) :=
  omap (fun e => match e with EvCallback i n => Some (i, n) | _ => None end) evs.

(** Files written and pauses taken, in order; other events dropped. *)
Fixpoint pacing (evs : list event) : list (string + Z) :=
  match evs with
  | [] => []
  | EvWrite path _ :: rest => inl path :: pacing rest
  | EvSleep secs :: rest => inr secs :: pacing rest
  | _ :: rest => pacing rest
  end.



(** A computation is quiet when, whatever its outcome, it writes no file
    and takes no pause: it leaves the files as they are and only appends
    events that [pacing] drops. *)
Definition quiet {S A} `{HasWorld S} (m : M S A) : Prop :=
  ∀ s r s', m s = (r, s') →
    files (world s') = files (world s)
    ∧ ∃ evs, trace (world s') = trace (world s) ++ evs ∧ pacing evs = [].

(** The specification's wording for the lines of a playlist that count
    as segments, "well-formed absolute HTTPS references" (section 6), read
    as: the scheme and [//], a non-empty host, and nothing but visible ASCII
    characters (no blank, no control character). *)
Definition visible (c : ascii) : bool :=
  let n := nat_of_ascii c in (33 <=? n) && (n <=? 126).

Fixpoint all_visible (s : string) : bool :=
  match s with
  | EmptyString => true
  | String c r => visible c && all_visible r
  end.

Fixpoint drop_chars (n : nat) (s : string) : string :=
  match n, s with
  | S k, String _ r => drop_chars k r
  | _, _ => s
  end.

Definition well_formed_https_ref (s : string) : bool :=
  String.prefix "https://" s && all_visible s &&
  match drop_chars 8 s with
  | EmptyString => false
  | String c _ =>
      negb (bool_decide (c = "/"%char) || bool_decide (c = "?"%char)
            || bool_decide (c = "#"%char))
  end.

(** ** Example data: a small site *)

Module Site.
Definition last_piece (sep s : string) : string :=
  List.last (PyStr.split sep s) EmptyString.

(** Helpers in the style of [core.utils]. *)
Definition utils : Utils := {|
  parse_name url := last_piece "/" url;
  format_name raw := PyStr.replace "_" " " None (PyStr.replace "-" " " None raw);
  complete_url href :=
    if PyStr.startswith href "https://" then href
    else "https://neko-sama.fr" +:+ href;
  get_extension url := last_piece "." url;
  get_episode_index _ := Ok 0%Z;
  get_anime_from_episode_url url := PyStr.replace "/episode/" "/info/" None url;
  extract_manifest raw :=
    [(480%Z, "https://cdn.example/480.m3u8");
     (1080%Z, "https://cdn.example/1080.m3u8")];
  segments_headers := [("Referer", "https://player.example/")]
|}.

Definition show_url : string := "https://neko-sama.fr/anime/info/9520-naruto_vostfr".
Definition ep1_url : string := "https://neko-sama.fr/anime/episode/9520-naruto-01_vostfr".
Definition ep2_url : string := "https://neko-sama.fr/anime/episode/9520-naruto-02_vostfr".

Definition leaf (text : string) (attrs : list (string * string)) : Element :=
  Elem text (list_to_map attrs) [] [].

Definition link_to (url : string) : Element := Elem EmptyString ∅ [url] [].

(** The page of the show: a picture, and a listing that names the second
    episode first and the first one twice.  No synopsis block. *)
Definition show_page : HTML :=
  Elem EmptyString ∅ []
    [(".loading", [leaf EmptyString [("src", "https://img.example/naruto.jpg")]]);
     (".js-list-episode-container *",
      [link_to ep2_url; link_to ep1_url; Elem "Episodes" ∅ [] []; link_to ep1_url])].

(** The page of an episode: the player frame. *)
Definition episode_page : HTML :=
  Elem EmptyString ∅ []
    [("#display-player iframe",
      [leaf EmptyString [("src", "https://player.example/embed/42")]])].

Definition other_page : HTML := Elem "moved" ∅ [] [].

Definition byte_of (c : ascii) : Byte.byte := byte_of_ascii c.
Definition payload (s : string) : bytes := byte_of <$> list_ascii_of_string s.

Definition playlist : string :=
  "#EXTM3U" +:+ NL +:+ "https://cdn.example/a.ts" +:+ NL +:+
  "#EXTINF" +:+ NL +:+ "https://cdn.example/b.ts" +:+ NL +:+
  "https://cdn.example/c.ts" +:+ NL.

(** A server on which every address answers 200, except [bad], which
    answers 404; images are served with the number of earlier requests
    stamped in, so that two fetches of one image differ. *)
Definition serve (bad : string) (t : list event) (url : string) (hdrs : headers)
    : Response.t :=
  if bool_decide (url = bad) then Response.mk false 404 "Not Found" (payload "Not Found")
  else if bool_decide (url = "https://cdn.example/1080.m3u8")
  then Response.mk true 200 playlist (payload playlist)
  else if bool_decide (url = "https://cdn.example/a.ts") then Response.mk true 200 "A" (payload "A")
  else if bool_decide (url = "https://cdn.example/b.ts") then Response.mk true 200 "B" (payload "B")
  else if bool_decide (url = "https://cdn.example/c.ts") then Response.mk true 200 "C" (payload "C")
  else Response.mk true 200 EmptyString (payload (pretty (length t))).

Definition net (bad : string) : Net := {|
  html_session_get t url :=
    if bool_decide (url = show_url) then HTMLResponse.mk true 200 [] show_page
    else if bool_decide (url = "https://neko-sama.fr/gone")
    then HTMLResponse.mk false 404 [] other_page
    else HTMLResponse.mk true 200 [] episode_page;
  render page := page;
  session_get := serve bad;
  grab t url flag := "manifest of " +:+ url
|}.

Definition empty_world : World := mkWorld [] [] ∅.

(** [comm.get_anime(show_url)] and [Episode.from_url(ep1_url, comm)] before
    anything was fetched. *)
Definition anime_state : AnimeSt := @Comm_get_anime utils show_url empty_world.
Definition episode_state : EpisodeSt := @Episode_from_url utils ep1_url empty_world.

Definition show : Anime.t := a_self anime_state.
Definition ep1 : Episode.t := e_self episode_state.
End Site.

(** ** Example data: a show of one episode *)

Module Film.
Definition show_page : HTML :=
  Elem EmptyString ∅ []
    [(".js-list-episode-container *", [Site.link_to Site.ep1_url])].

Definition net : Net := {|
  html_session_get t url :=
    if bool_decide (url = Site.show_url) then HTMLResponse.mk true 200 [] show_page
    else HTMLResponse.mk true 200 [] Site.episode_page;
  render page := page;
  session_get := Site.serve EmptyString;
  grab t url flag := "manifest of " +:+ url
|}.
End Film.

(** ** Vocabulary of the further properties *)

(** The addresses of the pages fetched, in order. *)
Definition page_fetches (evs : list event) : list string :=
  omap (fun e => match e with EvPage url => Some url | _ => None end) evs.


(** [sep] occurs in the text [pre +:+ s] at a position of [pre]. *)
Fixpoint starts_within (sep pre s : string) : bool :=
  match pre with
  | EmptyString => false
  | String _ r => String.prefix sep (pre +:+ s) || starts_within sep r s
  end.

(** The poster address in a style: [style] is [pre], then its first [url(],
    then [src], then [tail], where [src] holds no closing parenthesis, no
    [url(] starts in it, and it goes up to a closing parenthesis, to
    another [url(] or to the end of the style. *)
Definition cut_at_url (style pre src tail : string) : Prop :=
  style = pre +:+ "url(" +:+ src +:+ tail
  ∧ starts_within "url(" pre ("url(" +:+ src +:+ tail) = false
  ∧ PyStr.contains ")" src = false
  ∧ starts_within "url(" src tail = false
  ∧ (tail = EmptyString ∨ String.prefix ")" tail = true
     ∨ String.prefix "url(" tail = true).

(** A method of a show fetches the page at most once: with a page in the
    cache it fetches none and keeps that page; without one it fetches at
    most one, and then leaves a page in the cache. *)
Definition page_once {A} (m : M AnimeSt A) : Prop :=
  ∀ s r s', m s = (r, s') →
    ∃ evs, trace (a_world s') = trace (a_world s) ++ evs ∧
      match Anime.cache (a_self s) with
      | Some page =>
          page_fetches evs = [] ∧ Anime.cache (a_self s') = Some page
      | None =>
          length (page_fetches evs) ≤ 1
          ∧ (page_fetches evs ≠ [] → is_Some (Anime.cache (a_self s')))
      end.

(** ** Example data: a fuller page *)

Module Catalog.
Definition thumbnail (href src : string) : Element :=
  Elem EmptyString ∅ []
    [("a", [Site.leaf EmptyString [("href", href)]]);
     ("img", [Site.leaf EmptyString [("src", src)]])].

Definition good_tags : list Element :=
  [Site.leaf "Action" [("href", "/tag/action")];
   Site.leaf "Ninja" [("href", "/tag/ninja")]].

(** The second tag has lost its link. *)
Definition bad_tags : list Element :=
  [Site.leaf "Action" [("href", "/tag/action")]; Site.leaf "Ninja" []].

(** U+00A0, the no-break space, in UTF-8. *)
Definition nbsp : string :=
  String (ascii_of_nat 194) (String (ascii_of_nat 160) EmptyString).

(** The information items: the second one has a no-break space after its
    label, the third one holds white space only. *)
Definition info_items : list Element :=
  [Site.leaf ("Format" +:+ NL +:+ "TV") [];
   Site.leaf ("Status" +:+ nbsp +:+ "finished airing") [];
   Site.leaf (" " +:+ nbsp) [];
   Site.leaf ("Studio" +:+ NL +:+ "Pierrot") []].

(** The page of the show, with the given items in its tag list. *)
Definition show_page (tags : list Element) : HTML :=
  Elem EmptyString ∅ []
    [(".synopsis", [Site.leaf "A boy and a fox." []]);
     ("#anime-info-list .item", info_items);
     (".loading", [Site.leaf EmptyString [("src", "https://img.example/naruto.jpg")]]);
     ("#head",
      [Site.leaf EmptyString
         [("style", "background-image: url(https://img.example/poster.png); opacity: 1")]]);
     (".tag", [Elem EmptyString ∅ [] [("item", tags)]]);
     (".js-list-episode-container *",
      [Site.link_to Site.ep2_url; Site.link_to Site.ep1_url; Site.link_to Site.ep1_url]);
     (".js-list-episode-container .holder",
      [thumbnail "/anime/episode/9520-naruto-02_vostfr" "https://img.example/ep2.jpg";
       thumbnail "/anime/episode/9520-naruto-01_vostfr" "https://img.example/ep1.jpg"])].

(** The page of an episode, with the given address in its player frame. *)
Definition episode_page (frame_src : string) : HTML :=
  Elem EmptyString ∅ []
    [("#display-player iframe", [Site.leaf EmptyString [("src", frame_src)]])].

(** The server of [Site], which on demand stops serving the second segment
    once a first file has been written. *)
Definition serve (flaky : bool) (t : list event) (url : string) (hdrs : headers)
    : Response.t :=
  if flaky && bool_decide (url = "https://cdn.example/b.ts")
     && negb (bool_decide (pacing t = []))
  then Response.mk false 503 "Busy" (Site.payload "Busy")
  else Site.serve EmptyString t url hdrs.

Definition net (tags : list Element) (frame_src : string) (flaky : bool) : Net := {|
  html_session_get t url :=
    if bool_decide (url = Site.show_url)
    then HTMLResponse.mk true 200 [] (show_page tags)
    else HTMLResponse.mk true 200 [] (episode_page frame_src);
  render page := page;
  session_get := serve flaky;
  grab t url flag := "manifest of " +:+ url
|}.

Definition frame : string := "https://player.example/embed/42".

Definition anime_state : AnimeSt :=
  @Comm_get_anime Site.utils Site.show_url Site.empty_world.

(** The first episode of that show, as [anime.get_episode(1)] builds it. *)
Definition episode_state : EpisodeSt :=
  mkEpisodeSt (@Episode_new Site.utils (episode_url Site.show_url 1))
    (a_self anime_state) Site.empty_world.
End Catalog.

(** * Properties *)

Ltac run :=
  unfold bind, ret, raise, get_state, modify, io, emit, log_at, sleep, write_file,
    local, except, a_update, e_update, in_anime, in_episode; simpl.

(** ** Comm.get_dyna *)

Lemma Comm_get_dyna_run `{Net} (url : string) (w : World) :
  let req := html_session_get (trace w) url in
  Comm_get_dyna url w =
    (Ok (render (HTMLResponse.html req)),
     mkWorld (trace w ++ [EvPage url])
       (logs w ++ (if HTMLResponse.ok req then [] else [(ERR, "Failed to load page")]))
       (files w)).
Proof.
  unfold Comm_get_dyna, html_get_rendered. run.
  destruct (HTMLResponse.ok _); simpl; [| reflexivity].
  by rewrite app_nil_r.
Qed.

(** C10: whatever the status of the response, [get_dyna] returns the rendered
    page and raises nothing; a failed load only adds a line to the error
    log.  The value handed to the caller depends on the page alone: two
    servers that answer with the same page, one with success and one
    without, give the caller the same result. *)
Theorem get_dyna_returns_page_for_every_status (N : Net) (url : string) (w : World) :
  let req := html_session_get (trace w) url in
  (∃ w',
    Comm_get_dyna url w = (Ok (render (HTMLResponse.html req)), w')
    ∧ trace w' = trace w ++ [EvPage url]
    ∧ files w' = files w
    ∧ logs w' = logs w ++ (if HTMLResponse.ok req then []
                           else [(ERR, "Failed to load page")]))
  ∧ ∀ N' : Net,
      @render N' (HTMLResponse.html (@html_session_get N' (trace w) url))
        = render (HTMLResponse.html req) →
      fst (@Comm_get_dyna N' url w) = fst (Comm_get_dyna url w).
Proof.
  intros req. split.
  - eexists. split; [apply Comm_get_dyna_run |]. simpl. auto.
  - intros N' Hpage. rewrite !Comm_get_dyna_run. simpl. by rewrite Hpage.
Qed.

(** ** get_page *)

Section GetPage.
Context `{Utils} `{Net}.

Lemma Anime_get_page_run (cache force : bool) (s : AnimeSt) :
  Anime_get_page cache force s =
    let '(page, w) :=
      match Anime.cache (a_self s), force with
      | Some cached, false => (cached, a_world s)
      | _, _ =>
          let req := html_session_get (trace (a_world s)) (Anime.url (a_self s)) in
          (render (HTMLResponse.html req),
           mkWorld (trace (a_world s) ++ [EvPage (Anime.url (a_self s))])
             (logs (a_world s) ++
                (if HTMLResponse.ok req then [] else [(ERR, "Failed to load page")]))
             (files (a_world s)))
      end in
    (Ok page,
     mkAnimeSt (if cache then Anime.set_cache (Some page) (a_self s) else a_self s) w).
Proof.
  destruct s as [self w]. unfold Anime_get_page. run.
  destruct (Anime.cache self) as [cached|], force; simpl;
    rewrite ?Comm_get_dyna_run; simpl; destruct cache; reflexivity.
Qed.

Lemma Episode_get_page_run (cache force : bool) (s : EpisodeSt) :
  Episode_get_page cache force s =
    let '(page, w) :=
      match Episode.cache (e_self s), force with
      | Some cached, false => (cached, e_world s)
      | _, _ =>
          let req := html_session_get (trace (e_world s)) (Episode.url (e_self s)) in
          (render (HTMLResponse.html req),
           mkWorld (trace (e_world s) ++ [EvPage (Episode.url (e_self s))])
             (logs (e_world s) ++
                (if HTMLResponse.ok req then [] else [(ERR, "Failed to load page")]))
             (files (e_world s)))
      end in
    (Ok page,
     mkEpisodeSt (if cache then Episode.set_cache (Some page) (e_self s) else e_self s)
       (e_anime s) w).
Proof.
  destruct s as [self parent w]. unfold Episode_get_page. run.
  destruct (Episode.cache self) as [cached|], force; simpl;
    rewrite ?Comm_get_dyna_run; simpl; destruct cache; reflexivity.
Qed.

(** C6, as the code has it: [get_page] returns the cached page when there
    is one and [force] is not set, without any fetch; otherwise it returns
    the page fetched by [get_dyna].  With the [cache] flag set, the page
    returned becomes the one cached page of the entity, in place of any
    earlier one; with the flag unset the cache slot is left as it was,
    also by a forced fetch.  Nothing else of the entity changes.  This
    holds for the show and for the episode. *)
Theorem get_page_cache_discipline (cache force : bool) :
  (∀ s : AnimeSt, ∃ page s',
      Anime_get_page cache force s = (Ok page, s')
      ∧ (∀ cached, Anime.cache (a_self s) = Some cached → force = false →
           page = cached ∧ a_world s' = a_world s)
      ∧ (Anime.cache (a_self s) = None ∨ force = true →
           Comm_get_dyna (Anime.url (a_self s)) (a_world s) = (Ok page, a_world s'))
      ∧ a_self s' = (if cache then Anime.set_cache (Some page) (a_self s)
                     else a_self s))
  ∧ (∀ s : EpisodeSt, ∃ page s',
      Episode_get_page cache force s = (Ok page, s')
      ∧ (∀ cached, Episode.cache (e_self s) = Some cached → force = false →
           page = cached ∧ e_world s' = e_world s)
      ∧ (Episode.cache (e_self s) = None ∨ force = true →
           Comm_get_dyna (Episode.url (e_self s)) (e_world s) = (Ok page, e_world s'))
      ∧ e_self s' = (if cache then Episode.set_cache (Some page) (e_self s)
                     else e_self s)
      ∧ e_anime s' = e_anime s).
Proof.
  split; intros s.
  - rewrite Anime_get_page_run.
    destruct (Anime.cache (a_self s)) as [cached|] eqn:Hc, force eqn:Hf;
      simpl; eexists _, _; (split; [reflexivity |]); simpl;
      rewrite ?Comm_get_dyna_run; simpl;
      (split; [intros ? ? ?; simplify_eq; auto |]);
      (split; [intros [?|?]; simplify_eq; auto | reflexivity]).
  - rewrite Episode_get_page_run.
    destruct (Episode.cache (e_self s)) as [cached|] eqn:Hc, force eqn:Hf;
      simpl; eexists _, _; (split; [reflexivity |]); simpl;
      rewrite ?Comm_get_dyna_run; simpl;
      (split; [intros ? ? ?; simplify_eq; auto |]);
      (split; [intros [?|?]; simplify_eq; auto | split; reflexivity]).
Qed.
End GetPage.

(** C6, the claim as stated fails: a forced fetch with the [cache] flag
    unset returns the fresh page and leaves the old snapshot in the cache. *)
Lemma forced_fetch_without_cache_flag_keeps_snapshot :
  let N := Site.net EmptyString in
  let stale := mkAnimeSt (Anime.set_cache (Some Site.other_page) Site.show)
                 Site.empty_world in
  let '(r, s') := @Anime_get_page N false true stale in
  r = Ok Site.show_page
  ∧ Anime.cache (a_self s') = Some Site.other_page
  ∧ Site.show_page ≠ Site.other_page
  ∧ trace (a_world s') = [EvPage Site.show_url].
Proof. vm_compute. repeat split; congruence. Qed.

(** ** Facts about Python strings *)

Section StringFacts.
Implicit Types s t u : string.

Lemma str_app_nil_l t : EmptyString +:+ t = t.
Proof. reflexivity. Qed.

Lemma str_app_cons c s t : String c s +:+ t = String c (s +:+ t).
Proof. reflexivity. Qed.

Lemma str_app_assoc s t u : (s +:+ t) +:+ u = s +:+ t +:+ u.
Proof.
  induction s as [|c s IH]; [reflexivity |].
  by rewrite !str_app_cons, IH.
Qed.

Lemma str_app_nil_r s : s +:+ EmptyString = s.
Proof.
  induction s as [|c s IH]; [reflexivity |].
  by rewrite str_app_cons, IH.
Qed.

Lemma str_rev_app_spec s t : String.rev_app s t = String.rev s +:+ t.
Proof.
  unfold String.rev. revert t.
  induction s as [|c s IH]; intros t; simpl; [reflexivity |].
  rewrite IH, (IH (String c EmptyString)), str_app_assoc. reflexivity.
Qed.

Lemma str_rev_cons c s : String.rev (String c s) = String.rev s +:+ String c EmptyString.
Proof. unfold String.rev at 1. simpl. apply str_rev_app_spec. Qed.

Lemma str_rev_append s t : String.rev (s +:+ t) = String.rev t +:+ String.rev s.
Proof.
  induction s as [|c s IH].
  - by rewrite str_app_nil_l, str_app_nil_r.
  - by rewrite str_app_cons, !str_rev_cons, IH, str_app_assoc.
Qed.

Lemma str_rev_involutive s : String.rev (String.rev s) = s.
Proof.
  induction s as [|c s IH]; [reflexivity |].
  by rewrite str_rev_cons, str_rev_append, IH.
Qed.

(** A one-character pattern. *)
Lemma prefix_char c d r :
  String.prefix (String c EmptyString) (String d r) = bool_decide (c = d).
Proof.
  simpl. destruct (ascii_dec c d) as [->|Hne].
  - rewrite bool_decide_eq_true_2 by done. by destruct r.
  - by rewrite bool_decide_eq_false_2.
Qed.

Lemma contains_char_cons c d r :
  PyStr.contains (String c EmptyString) (String d r) =
    bool_decide (c = d) || PyStr.contains (String c EmptyString) r.
Proof. cbn [PyStr.contains]. by rewrite prefix_char. Qed.

Lemma contains_char_append c s t :
  PyStr.contains (String c EmptyString) (s +:+ t) =
    PyStr.contains (String c EmptyString) s || PyStr.contains (String c EmptyString) t.
Proof.
  induction s as [|d s IH].
  - rewrite str_app_nil_l. reflexivity.
  - rewrite str_app_cons, !contains_char_cons, IH. by rewrite orb_assoc.
Qed.

Lemma contains_char_rev c s :
  PyStr.contains (String c EmptyString) (String.rev s) =
    PyStr.contains (String c EmptyString) s.
Proof.
  induction s as [|d s IH]; [reflexivity |].
  rewrite str_rev_cons, contains_char_append, IH, !contains_char_cons.
  simpl. rewrite orb_false_r. apply orb_comm.
Qed.

(** [split] on a one-character separator cuts at every occurrence and
    nowhere else. *)
Lemma split_go_char_join c cur s :
  PyStr.join (String c EmptyString) (PyStr.split_go (String c EmptyString) 0 cur s)
    = String.rev cur +:+ s
  ∧ PyStr.split_go (String c EmptyString) 0 cur s ≠ [].
Proof.
  revert cur. induction s as [|d s IH]; intros cur.
  - simpl. by rewrite str_app_nil_r.
  - cbn [PyStr.split_go]. rewrite prefix_char. case_bool_decide as Hd.
    + subst d. simpl String.length. simpl Nat.sub.
      destruct (IH EmptyString) as [Hj Hne]. split; [| done].
      unfold PyStr.join in *. simpl.
      destruct (PyStr.split_go _ 0 EmptyString s) eqn:E; [done |].
      rewrite Hj. reflexivity.
    + destruct (IH (String d cur)) as [Hj Hne]. split; [| done].
      rewrite Hj, str_rev_cons, str_app_assoc. reflexivity.
Qed.

Lemma split_go_char_pieces c cur s :
  PyStr.contains (String c EmptyString) cur = false →
  Forall (λ piece, PyStr.contains (String c EmptyString) piece = false)
    (PyStr.split_go (String c EmptyString) 0 cur s).
Proof.
  revert cur. induction s as [|d s IH]; intros cur Hcur.
  - simpl. constructor; [| constructor]. by rewrite contains_char_rev.
  - cbn [PyStr.split_go]. rewrite prefix_char. case_bool_decide as Hd.
    + constructor; [by rewrite contains_char_rev |].
      apply IH. reflexivity.
    + apply IH. rewrite contains_char_cons, Hcur.
      by rewrite bool_decide_eq_false_2.
Qed.

(** [replace] of a one-character pattern, at most once. *)
Lemma replace_go_done old new s : PyStr.replace_go old new (Some 0) 0 s = s.
Proof. induction s as [|d s IH]; simpl; [reflexivity | by rewrite IH]. Qed.

Lemma replace_first_char c new s t :
  PyStr.contains (String c EmptyString) s = false →
  PyStr.replace (String c EmptyString) new (Some 1) (s +:+ String c t)
    = s +:+ new +:+ t.
Proof.
  unfold PyStr.replace. induction s as [|d s IH]; intros Hs.
  - change (EmptyString +:+ String c t) with (String c t).
    cbn [PyStr.replace_go]. rewrite prefix_char, bool_decide_eq_true_2 by done.
    simpl. by rewrite replace_go_done.
  - rewrite contains_char_cons in Hs. apply orb_false_iff in Hs as [Hd Hs].
    change (String d s +:+ String c t) with (String d (s +:+ String c t)).
    cbn [PyStr.replace_go]. rewrite prefix_char, Hd. simpl. by rewrite IH.
Qed.

Lemma replace_first_char_absent c new s :
  PyStr.contains (String c EmptyString) s = false →
  PyStr.replace (String c EmptyString) new (Some 1) s = s.
Proof.
  unfold PyStr.replace. induction s as [|d s IH]; intros Hs; [reflexivity |].
  rewrite contains_char_cons in Hs. apply orb_false_iff in Hs as [Hd Hs].
  cbn [PyStr.replace_go]. rewrite prefix_char, Hd. by rewrite IH.
Qed.
End StringFacts.

(** ** The segment list *)

Lemma split_go_char_absent c cur s :
  PyStr.contains (String c EmptyString) s = false →
  PyStr.split_go (String c EmptyString) 0 cur s = [String.rev cur +:+ s].
Proof.
  revert cur. induction s as [|d s IH]; intros cur Hs.
  - simpl. by rewrite str_app_nil_r.
  - rewrite contains_char_cons in Hs. apply orb_false_iff in Hs as [Hd Hs].
    cbn [PyStr.split_go]. rewrite prefix_char, Hd, (IH _ Hs), str_rev_cons, str_app_assoc.
    reflexivity.
Qed.

Lemma split_go_char_app c cur s t :
  PyStr.contains (String c EmptyString) s = false →
  PyStr.split_go (String c EmptyString) 0 cur (s +:+ String c t) =
    (String.rev cur +:+ s) :: PyStr.split_go (String c EmptyString) 0 EmptyString t.
Proof.
  revert cur. induction s as [|d s IH]; intros cur Hs.
  - rewrite str_app_nil_l, str_app_nil_r. cbn [PyStr.split_go].
    by rewrite prefix_char, bool_decide_eq_true_2.
  - rewrite contains_char_cons in Hs. apply orb_false_iff in Hs as [Hd Hs].
    rewrite str_app_cons. cbn [PyStr.split_go].
    rewrite prefix_char, Hd, (IH _ Hs), str_rev_cons, str_app_assoc. reflexivity.
Qed.

(** Cutting at the separator undoes joining with it. *)
Lemma split_join_char c (pieces : list string) :
  pieces ≠ [] →
  Forall (λ piece, PyStr.contains (String c EmptyString) piece = false) pieces →
  PyStr.split (String c EmptyString) (PyStr.join (String c EmptyString) pieces) = pieces.
Proof.
  unfold PyStr.split, PyStr.join.
  induction pieces as [|x rest IH]; intros Hne Hall; [done |].
  apply Forall_cons in Hall as [Hx Hrest].
  destruct rest as [|y rest].
  - simpl. by rewrite split_go_char_absent.
  - change (String.concat (String c EmptyString) (x :: y :: rest))
      with (x +:+ String c EmptyString
              +:+ String.concat (String c EmptyString) (y :: rest)).
    rewrite str_app_cons, str_app_nil_l, split_go_char_app by done.
    rewrite IH by done. reflexivity.
Qed.

Lemma filter_sublist {A} (f : A → bool) (l : list A) : sublist (List.filter f l) l.
Proof.
  induction l as [|x l IH]; simpl; [constructor |].
  destruct (f x); by constructor.
Qed.

(** C9, as the code has it: the playlist text is cut at every line feed and
    nowhere else, so its lines are the one way to write it as pieces
    without line feed joined by line feeds; and the segment list is that
    list of lines with the lines that do not start with [https://] left
    out, every other line kept where it stands, as often as it occurs.
    Every well-formed absolute HTTPS reference is among them, but the test
    is the prefix only. *)
Theorem segments_are_the_lines_with_https_prefix (res : string) :
  PyStr.join NL (PyStr.split NL res) = res
  ∧ Forall (λ line, PyStr.contains NL line = false) (PyStr.split NL res)
  ∧ (∀ lines, lines ≠ [] →
       Forall (λ line, PyStr.contains NL line = false) lines →
       PyStr.join NL lines = res → PyStr.split NL res = lines)
  ∧ segments_of res =
      List.filter (λ line, PyStr.startswith line "https://") (PyStr.split NL res)
  ∧ (∀ lines, lines ≠ [] →
       Forall (λ line, PyStr.contains NL line = false) lines →
       PyStr.join NL lines = res →
       segments_of res = List.filter (λ line, PyStr.startswith line "https://") lines)
  ∧ sublist (segments_of res) (PyStr.split NL res)
  ∧ (∀ s, s ∈ segments_of res ↔
          s ∈ PyStr.split NL res ∧ PyStr.startswith s "https://" = true)
  ∧ (∀ s, s ∈ PyStr.split NL res → well_formed_https_ref s = true →
          s ∈ segments_of res).
Proof.
  split; [apply (split_go_char_join _ EmptyString res) |].
  split; [by apply split_go_char_pieces |].
  split; [intros lines Hne Hall <-; by apply split_join_char |].
  split; [reflexivity |].
  split.
  { intros lines Hne Hall <-. unfold segments_of. f_equal.
    by apply split_join_char. }
  split; [apply filter_sublist |].
  assert (Hiff : ∀ s, s ∈ segments_of res ↔
            s ∈ PyStr.split NL res ∧ PyStr.startswith s "https://" = true).
  { intros s. unfold segments_of. rewrite !list_elem_of_In, filter_In. reflexivity. }
  split; [exact Hiff |].
  intros s Hin Hwf. apply Hiff. split; [done |].
  unfold well_formed_https_ref in Hwf.
  apply andb_true_iff in Hwf as [Hwf _]. by apply andb_true_iff in Hwf as [Hwf _].
Qed.

(** C9, the claim as stated fails: a line that starts with [https://] is
    collected as a segment whether or not it is a well-formed address. *)
Lemma malformed_line_with_https_prefix_is_collected :
  let res := "#EXTM3U" +:+ NL +:+ "https:// not an address" +:+ NL +:+
             "https://cdn.example/a.ts" in
  segments_of res = ["https:// not an address"; "https://cdn.example/a.ts"]
  ∧ well_formed_https_ref "https:// not an address" = false.
Proof. vm_compute. split; reflexivity. Qed.

(** The segment list of a playlist written line by line: a repeated line is
    collected each time. *)
Lemma segments_of_lines_witness :
  segments_of (PyStr.join NL ["https://cdn.example/a.ts"; "#EXTINF";
                              "https://cdn.example/b.ts"; "https://cdn.example/a.ts"; ""])
    = ["https://cdn.example/a.ts"; "https://cdn.example/b.ts"; "https://cdn.example/a.ts"].
Proof.
  set (lines := ["https://cdn.example/a.ts"; "#EXTINF";
                 "https://cdn.example/b.ts"; "https://cdn.example/a.ts"; ""]).
  destruct (segments_are_the_lines_with_https_prefix (PyStr.join NL lines))
    as (_ & _ & _ & _ & Hsegs & _).
  assert (Hne : lines ≠ []) by done.
  assert (Hall : Forall (λ line, PyStr.contains NL line = false) lines)
    by (repeat constructor).
  rewrite (Hsegs lines Hne Hall eq_refl).
  reflexivity.
Defined.

(** ** Anime.get_episode *)

Lemma episode_url_shape (url : string) (index : Z) (pre suf : string) :
  PyStr.replace "/info/" "/episode/" None url = pre +:+ "_" +:+ suf →
  PyStr.contains "_" suf = false →
  episode_url url index =
    pre +:+ "-" +:+ PyStr.zfill 2 (PyStr.str index) +:+ "_" +:+ suf.
Proof.
  intros Hurl Hsuf. unfold episode_url, PyStr.reversed. rewrite Hurl.
  rewrite (str_rev_append pre), (str_rev_append "_" suf).
  change (String.rev "_") with "_".
  rewrite str_app_assoc.
  change ("_" +:+ String.rev pre) with (String "_" (String.rev pre)).
  rewrite replace_first_char by (by rewrite contains_char_rev).
  rewrite !str_rev_append, !str_rev_involutive.
  change (String.rev "_") with "_". change (String.rev "-") with "-".
  by rewrite !str_app_assoc.
Qed.

Lemma episode_url_without_underscore (url : string) (index : Z) :
  PyStr.contains "_" (PyStr.replace "/info/" "/episode/" None url) = false →
  episode_url url index = PyStr.replace "/info/" "/episode/" None url.
Proof.
  intros Hno. unfold episode_url, PyStr.reversed.
  rewrite replace_first_char_absent by (by rewrite contains_char_rev).
  apply str_rev_involutive.
Qed.

(** C8, as the code has it: [get_episode] (and the episode index, which
    calls it) computes the episode's address from the show's address and the
    index alone, touching neither the show nor the world: every [/info/]
    becomes [/episode/], and the last underscore is replaced by a dash, the
    index zero-padded to two digits, and an underscore.  So the same index
    always gives the same address, and the addresses for 7 and 8 are the
    same but for [07] and [08]. *)
Theorem get_episode_inserts_index_before_last_underscore `{Utils}
    (s : AnimeSt) (index : Z) (pre suf : string) :
  PyStr.replace "/info/" "/episode/" None (Anime.url (a_self s)) = pre +:+ "_" +:+ suf →
  PyStr.contains "_" suf = false →
  (∃ ep, Anime_get_episode index s = (Ok ep, s)
       ∧ EpisodeIterable_getitem index s = (Ok ep, s)
       ∧ Episode.url ep =
           pre +:+ "-" +:+ PyStr.zfill 2 (PyStr.str index) +:+ "_" +:+ suf)
  ∧ episode_url (Anime.url (a_self s)) 7 = pre +:+ "-07_" +:+ suf
  ∧ episode_url (Anime.url (a_self s)) 8 = pre +:+ "-08_" +:+ suf.
Proof.
  intros Hurl Hsuf. split; [| split].
  - eexists. split; [reflexivity |]. split; [reflexivity |].
    simpl. by apply episode_url_shape.
  - by rewrite (episode_url_shape _ 7 pre suf).
  - by rewrite (episode_url_shape _ 8 pre suf).
Qed.

Lemma get_episode_inserts_index_witness :
  episode_url Site.show_url 7 = "https://neko-sama.fr/anime/episode/9520-naruto-07_vostfr"
  ∧ episode_url Site.show_url 8 = "https://neko-sama.fr/anime/episode/9520-naruto-08_vostfr".
Proof.
  apply (@get_episode_inserts_index_before_last_underscore Site.utils
           Site.anime_state 7 "https://neko-sama.fr/anime/episode/9520-naruto" "vostfr");
    reflexivity.
Defined.

(** C8, the claim as stated fails: on a show address without underscore the
    index does not enter the address at all, and no numeric part of the
    address is replaced; 7 and 8 give the same address. *)
Lemma get_episode_ignores_index_without_underscore :
  episode_url "https://neko-sama.fr/anime/info/9520-naruto" 7
    = "https://neko-sama.fr/anime/episode/9520-naruto"
  ∧ episode_url "https://neko-sama.fr/anime/info/9520-naruto" 8
    = "https://neko-sama.fr/anime/episode/9520-naruto".
Proof. vm_compute. split; reflexivity. Qed.

(** ** Quality resolution *)

Section QualityFacts.
Local Open Scope Z_scope.
Implicit Types e best : Z * string.

Local Instance level_le_total : Total level_le.
Proof. intros a b. unfold level_le. lia. Qed.

Local Instance level_le_trans : Transitive level_le.
Proof. intros a b c. unfold level_le. lia. Qed.

Lemma sorted_manifest (manifest : list (Z * string)) :
  StronglySorted level_le (merge_sort level_le manifest)
  ∧ merge_sort level_le manifest ≡ₚ manifest.
Proof.
  split; [apply StronglySorted_merge_sort; apply _ | apply merge_sort_Permutation].
Qed.

Lemma last_cons_default {A} (x : A) (l : list A) (d d' : A) :
  List.last (x :: l) d = List.last (x :: l) d'.
Proof.
  revert x. induction l as [|y l IH]; intros x; [reflexivity |].
  change (List.last (y :: l) d = List.last (y :: l) d'). apply IH.
Qed.

Lemma last_is_greatest first rest :
  StronglySorted level_le (first :: rest) →
  List.last (first :: rest) first ∈ first :: rest
  ∧ ∀ e, e ∈ first :: rest → level_le e (List.last (first :: rest) first).
Proof.
  revert first. induction rest as [|x rest IH]; intros first Hs.
  - simpl. split; [left |]. intros e ->%list_elem_of_singleton. unfold level_le. lia.
  - apply StronglySorted_inv in Hs as [Hs Hall].
    destruct (IH x Hs) as [Hin Hmax].
    change (List.last (first :: x :: rest) first) with (List.last (x :: rest) first).
    rewrite (last_cons_default x rest first x). split; [by right |].
    intros e [->|He]%elem_of_cons; [| by apply Hmax].
    rewrite Forall_forall in Hall. by apply Hall.
Qed.

Lemma nearest_spec q best rest :
  StronglySorted level_le rest →
  (∀ e, e ∈ rest → best.1 ≤ e.1) →
  let r := nearest q best rest in
  r ∈ best :: rest
  ∧ ∀ e, e ∈ best :: rest →
      Z.abs (r.1 - q) ≤ Z.abs (e.1 - q)
      ∧ (Z.abs (e.1 - q) = Z.abs (r.1 - q) → r.1 ≤ e.1).
Proof.
  revert best. induction rest as [|x rest IH]; intros best Hs Hlow; simpl.
  - split; [left |]. intros e ->%list_elem_of_singleton. lia.
  - apply StronglySorted_inv in Hs as [Hs Hall].
    rewrite Forall_forall in Hall.
    assert (Hx : ∀ e, e ∈ rest → x.1 ≤ e.1).
    { intros e He. by apply (Hall e). }
    assert (Hbx : best.1 ≤ x.1) by (apply Hlow; left).
    destruct (Z.ltb_spec (Z.abs (x.1 - q)) (Z.abs (best.1 - q))) as [Hlt|Hge].
    + destruct (IH x Hs Hx) as [Hin Hmin]. split.
      { right. exact Hin. }
      intros e [->|He]%elem_of_cons; [| by apply Hmin].
      destruct (Hmin x) as [Hd _]; [left |]. lia.
    + assert (Hlow' : ∀ e, e ∈ rest → best.1 ≤ e.1).
      { intros e He. apply Hlow. by right. }
      destruct (IH best Hs Hlow') as [Hin Hmin]. split.
      { apply elem_of_cons in Hin as [->|Hin]; [left | right; by right]. }
      intros e [->|[->|He]%elem_of_cons]%elem_of_cons.
      * apply Hmin. left.
      * destruct (Hmin best) as [Hd Ht]; [left |]. split; [lia |].
        intros Heq. assert (Z.abs (best.1 - q) = Z.abs ((nearest q best rest).1 - q)) by lia.
        specialize (Ht H). lia.
      * apply Hmin. by right.
Qed.

(** C5: on an empty manifest every quality specification fails with
    [ManifestEmpty]; on a non-empty one, [best] yields the address of an
    entry of maximum level, [worst] of one of minimum level, [middle] of
    the lower-middle entry of the manifest sorted by ascending level, and a
    number the address of an entry at the smallest distance from it, of
    lowest level among those at that distance.  For [{1:u1, 3:u2, 5:u3}]:
    best is u3, worst is u1, 4 gives u2, middle is u2. *)
Theorem resolve_quality_selects_by_level (manifest : list (Z * string)) :
  (manifest = [] → ∀ quality, resolve_quality manifest quality = Raise ManifestEmpty)
  ∧ (manifest ≠ [] →
      (∃ e, e ∈ manifest ∧ resolve_quality manifest BEST = Ok e.2
            ∧ ∀ e', e' ∈ manifest → e'.1 ≤ e.1)
      ∧ (∃ e, e ∈ manifest ∧ resolve_quality manifest WORST = Ok e.2
              ∧ ∀ e', e' ∈ manifest → e.1 ≤ e'.1)
      ∧ (∃ e sorted, sorted ≡ₚ manifest ∧ StronglySorted level_le sorted
              ∧ sorted !! ((length manifest - 1) / 2)%nat = Some e
              ∧ resolve_quality manifest MIDDLE = Ok e.2)
      ∧ (∀ q, ∃ e, e ∈ manifest ∧ resolve_quality manifest (Level q) = Ok e.2
              ∧ ∀ e', e' ∈ manifest →
                  Z.abs (e.1 - q) ≤ Z.abs (e'.1 - q)
                  ∧ (Z.abs (e'.1 - q) = Z.abs (e.1 - q) → e.1 ≤ e'.1)))
  ∧ (let m := [(1, "u1"); (3, "u2"); (5, "u3")] in
     resolve_quality m BEST = Ok "u3" ∧ resolve_quality m WORST = Ok "u1"
     ∧ resolve_quality m (Level 4) = Ok "u2" ∧ resolve_quality m MIDDLE = Ok "u2").
Proof.
  split; [| split].
  - intros -> quality. reflexivity.
  - intros Hne. unfold resolve_quality.
    destruct (sorted_manifest manifest) as [Hs Hp].
    destruct (merge_sort level_le manifest) as [|first rest] eqn:E.
    { apply Permutation_nil_l in Hp. congruence. }
    assert (Hmem : ∀ e, e ∈ first :: rest ↔ e ∈ manifest).
    { intros e. by rewrite Hp. }
    repeat split.
    + destruct (last_is_greatest first rest Hs) as [Hin Hmax].
      exists (List.last (first :: rest) first).
      split; [by apply Hmem |]. split; [reflexivity |].
      intros e' He'. apply Hmax. by apply Hmem.
    + exists first. split; [apply Hmem; left |]. split; [reflexivity |].
      intros e' [->|He']%Hmem%elem_of_cons; [lia |].
      apply StronglySorted_inv in Hs as [_ Hall]. rewrite Forall_forall in Hall.
      by apply (Hall e').
    + assert (Hlen : length (first :: rest) = length manifest) by (by rewrite Hp).
      assert (Hlt : ((length (first :: rest) - 1) / 2 < length (first :: rest))%nat).
      { simpl length. rewrite Nat.sub_succ, Nat.sub_0_r.
        apply Nat.Div0.div_lt_upper_bound. lia. }
      exists (nth ((length (first :: rest) - 1) / 2) (first :: rest) first), (first :: rest).
      split; [done |]. split; [done |]. split; [| reflexivity].
      rewrite <- Hlen.
      destruct (nth_lookup_or_length (first :: rest)
                  ((length (first :: rest) - 1) / 2) first) as [Hn|Hn]; [done | lia].
    + intros q.
      assert (Hs' := Hs). apply StronglySorted_inv in Hs' as [Hs' Hall].
      rewrite Forall_forall in Hall.
      destruct (nearest_spec q first rest Hs') as [Hin Hmin].
      { intros e He. by apply (Hall e). }
      exists (nearest q first rest). split; [by apply Hmem |].
      split; [reflexivity |]. intros e' He'. apply Hmin. by apply Hmem.
  - vm_compute. repeat split; reflexivity.
Qed.
End QualityFacts.

(** ** Events *)

Lemma enumerate_from_app {A} (i : nat) (l1 l2 : list A) :
  enumerate_from i (l1 ++ l2) = enumerate_from i l1 ++ enumerate_from (i + length l1) l2.
Proof.
  revert i. induction l1 as [|x l1 IH]; intros i; simpl.
  - by rewrite Nat.add_0_r.
  - by rewrite IH, Nat.add_succ_r.
Qed.

Lemma callbacks_seg_events (lenght i : nat) (segments : list string) :
  callbacks (seg_events true lenght (enumerate_from i segments))
    = (λ k, (k, lenght)) <$> seq i (length segments).
Proof.
  revert i. induction segments as [|link rest IH]; intros i; simpl; [reflexivity |].
  by rewrite IH.
Qed.

Lemma pacing_app (evs1 evs2 : list event) :
  pacing (evs1 ++ evs2) = pacing evs1 ++ pacing evs2.
Proof.
  induction evs1 as [|[] evs1 IH]; simpl; rewrite ?IH; reflexivity.
Qed.

Lemma pacing_seg_events (cb : bool) (lenght : nat) (items : list (nat * string)) :
  pacing (seg_events cb lenght items) = [].
Proof.
  induction items as [|[i link] rest IH]; simpl; [reflexivity |].
  destruct cb; simpl; exact IH.
Qed.

(** ** Quiet computations *)

Section QuietFacts.
Context `{Utils} `{Net}.

Lemma quiet_ret {S A} `{HasWorld S} (a : A) : quiet (ret a : M S A).
Proof. intros s r s' [= <- <-]. split; [done |]. exists []. by rewrite app_nil_r. Qed.

Lemma quiet_raise {S A} `{HasWorld S} (e : exn) : quiet (raise e : M S A).
Proof. intros s r s' [= <- <-]. split; [done |]. exists []. by rewrite app_nil_r. Qed.

Lemma quiet_get_state {S} `{HasWorld S} : quiet (get_state : M S S).
Proof. intros s r s' [= <- <-]. split; [done |]. exists []. by rewrite app_nil_r. Qed.

Lemma quiet_bind {S A B} `{HasWorld S} (m : M S A) (k : A → M S B) :
  quiet m → (∀ a, quiet (k a)) → quiet (bind m k).
Proof.
  intros Hm Hk s r s'. unfold bind.
  destruct (m s) as [[a|e] s1] eqn:E; intros Hrun.
  - destruct (Hm _ _ _ E) as [Hf [evs [Ht Hp]]].
    destruct (Hk a _ _ _ Hrun) as [Hf' [evs' [Ht' Hp']]].
    split; [congruence |]. exists (evs ++ evs').
    by rewrite Ht', Ht, pacing_app, Hp, Hp', app_assoc.
  - injection Hrun as <- <-. exact (Hm _ _ _ E).
Qed.

Lemma quiet_log_at (l : level) (msg : string) : quiet (log_at l msg).
Proof. intros w r w' [= <- <-]. split; [done |]. exists []. simpl. by rewrite app_nil_r. Qed.

Lemma quiet_local {S A} `{HasWorld S} (name : string) (v : option A) :
  quiet (local name v : M S A).
Proof. destruct v; [apply quiet_ret | apply quiet_raise]. Qed.

Lemma quiet_a_update (f : Anime.t → Anime.t) : quiet (a_update f).
Proof. intros s r s' [= <- <-]. split; [done |]. exists []. simpl. by rewrite app_nil_r. Qed.

Lemma quiet_e_update (f : Episode.t → Episode.t) : quiet (e_update f).
Proof. intros s r s' [= <- <-]. split; [done |]. exists []. simpl. by rewrite app_nil_r. Qed.

Lemma quiet_io_anime {A} (m : M World A) : quiet m → quiet (io m : M AnimeSt A).
Proof.
  intros Hm s r s'. unfold io. destruct (m (world s)) as [r0 w] eqn:E.
  intros [= <- <-]. exact (Hm _ _ _ E).
Qed.

Lemma quiet_io_episode {A} (m : M World A) : quiet m → quiet (io m : M EpisodeSt A).
Proof.
  intros Hm s r s'. unfold io. destruct (m (world s)) as [r0 w] eqn:E.
  intros [= <- <-]. exact (Hm _ _ _ E).
Qed.

Lemma quiet_in_anime {A} (m : M AnimeSt A) : quiet m → quiet (in_anime m).
Proof.
  intros Hm s r s'. unfold in_anime.
  destruct (m _) as [r0 s0] eqn:E. intros [= <- <-]. exact (Hm _ _ _ E).
Qed.

Lemma quiet_get_url (url : string) (hdrs : headers) : quiet (get_url url hdrs).
Proof. intros w r w' [= <- <-]. split; [done |]. by exists [EvGet url hdrs]. Qed.

Lemma quiet_grab_request (url : string) (flag : bool) : quiet (grab_request url flag).
Proof. intros w r w' [= <- <-]. split; [done |]. by exists [EvGrab url]. Qed.

Lemma quiet_Comm_get_dyna (url : string) : quiet (Comm_get_dyna url).
Proof.
  intros w r w'. rewrite Comm_get_dyna_run. intros [= <- <-].
  split; [done |]. by exists [EvPage url].
Qed.

Lemma quiet_except_anime (failure : option exn) (msg : string) :
  quiet (except failure msg : M AnimeSt unit).
Proof. destruct failure; [apply quiet_io_anime, quiet_log_at | apply quiet_ret]. Qed.

Lemma quiet_except_episode (failure : option exn) (msg : string) :
  quiet (except failure msg : M EpisodeSt unit).
Proof. destruct failure; [apply quiet_io_episode, quiet_log_at | apply quiet_ret]. Qed.

End QuietFacts.

Create HintDb quiet.
#[global] Hint Resolve quiet_ret quiet_raise quiet_get_state quiet_log_at quiet_local
  quiet_a_update quiet_e_update quiet_io_anime quiet_io_episode quiet_in_anime
  quiet_get_url quiet_grab_request quiet_Comm_get_dyna quiet_except_anime
  quiet_except_episode : quiet.

Ltac quiet_step :=
  match goal with
  | |- quiet (bind _ _) => apply quiet_bind; [| intros ?]
  | |- quiet (match ?x with _ => _ end) => destruct x
  | |- quiet (let '(_, _) := ?x in _) => destruct x
  | |- quiet _ => solve [eauto with quiet]
  end.

Section QuietMethods.
Context `{Utils} `{Net}.

Lemma quiet_Anime_get_page (cache force : bool) : quiet (Anime_get_page cache force).
Proof. unfold Anime_get_page. repeat quiet_step. Qed.

Lemma quiet_Episode_get_page (cache force : bool) : quiet (Episode_get_page cache force).
Proof. unfold Episode_get_page. repeat quiet_step. Qed.

Lemma quiet_Episode_get_provider (cache force : bool) :
  quiet (Episode_get_provider cache force).
Proof.
  unfold Episode_get_provider.
  apply quiet_bind; [apply quiet_Episode_get_page | intros page].
  repeat quiet_step.
Qed.

Lemma quiet_parse_qualities {S} `{HasWorld S} (raw : string) (quality : Quality) :
  quiet (parse_qualities raw quality : M S string).
Proof. unfold parse_qualities. repeat quiet_step. Qed.

(** Up to the playlist address, a download writes no file and takes no
    pause, whether it succeeds or not. *)
Lemma quiet_resolve_playlist (quality : Quality) : quiet (resolve_playlist quality).
Proof.
  unfold resolve_playlist.
  apply quiet_bind; [apply quiet_Episode_get_provider | intros provider_url].
  apply quiet_bind; [eauto with quiet | intros raw].
  apply quiet_parse_qualities.
Qed.

Lemma quiet_fetch_segments (lenght : nat) (items : list (nat * string)) (content : bytes) :
  quiet (fetch_segments None lenght items content).
Proof.
  revert content. induction items as [|[i link] rest IH]; intros content; simpl.
  - apply quiet_ret.
  - apply quiet_bind; [apply quiet_get_url | intros segment].
    destruct (negb _); [apply quiet_raise |].
    apply quiet_bind; [apply quiet_ret | intros _]. apply IH.
Qed.
End QuietMethods.

(** ** The download loop *)

Section Download.
Context `{Utils} `{Net}.

(** The loop when every fetch succeeds. *)
Lemma fetch_segments_all_ok (cb : bool) (lenght : nat) (items : list (nat * string))
    (content : bytes) (w : World) :
  Forall (λ r, Response.ok r = true) (seg_responses cb lenght (trace w) items) →
  fetch_segments (callback_of cb) lenght items content w =
    (Ok (content ++ concat (Response.content <$> seg_responses cb lenght (trace w) items)),
     mkWorld (trace w ++ seg_events cb lenght items) (logs w) (files w)).
Proof.
  revert content w. induction items as [|[i link] rest IH]; intros content w Hok.
  - simpl. run. rewrite !app_nil_r. by destruct w.
  - simpl in Hok. apply Forall_cons in Hok as [Hhd Hrest].
    cbn [fetch_segments]. unfold get_url. run. rewrite Hhd. simpl.
    destruct cb; simpl in *.
    + unfold observer. run.
      rewrite <- app_assoc in *. simpl in *.
      rewrite (IH _ (mkWorld _ _ _)); simpl; [| exact Hrest].
      by rewrite <- !app_assoc.
    + rewrite (IH _ (mkWorld _ _ _)); simpl; [| exact Hrest].
      by rewrite <- !app_assoc.
Qed.

(** The loop when the fetches before [link] succeed and that of [link]
    does not. *)
Lemma fetch_segments_first_failure (cb : bool) (lenght : nat)
    (before : list (nat * string)) (i : nat) (link : string)
    (after : list (nat * string)) (content : bytes) (w : World) :
  Forall (λ r, Response.ok r = true) (seg_responses cb lenght (trace w) before) →
  let r := session_get (trace w ++ seg_events cb lenght before) link [] in
  Response.ok r = false →
  fetch_segments (callback_of cb) lenght (before ++ (i, link) :: after) content w =
    (Raise (FetchingErorr (Response.text r) (Response.status_code r)),
     mkWorld (trace w ++ seg_events cb lenght before ++ [EvGet link []])
       (logs w) (files w)).
Proof.
  revert content w. induction before as [|[j l] before IH]; intros content w Hok r Hbad.
  - subst r. simpl in *. rewrite app_nil_r in Hbad.
    unfold get_url. run. rewrite Hbad. simpl. by rewrite !app_nil_r.
  - simpl in Hok. apply Forall_cons in Hok as [Hhd Hrest].
    subst r. cbn [fetch_segments app]. unfold get_url. run. rewrite Hhd. simpl.
    destruct cb; simpl in *.
    + unfold observer. run. rewrite <- app_assoc in *. simpl in *.
      rewrite (IH _ (mkWorld _ _ _)); simpl; [| exact Hrest |].
      * by rewrite <- !app_assoc.
      * by rewrite <- app_assoc.
    + rewrite (IH _ (mkWorld _ _ _)); simpl; [| exact Hrest |].
      * by rewrite <- !app_assoc.
      * by rewrite <- app_assoc.
Qed.
End Download.

(** ** Episode.download *)

Section DownloadPipeline.
Context `{Utils} `{Net}.

(** C1: when the playlist address has been resolved and every segment of
    the playlist is fetched with success, the download returns the output
    path and the file at that path holds the payloads of the segments,
    concatenated in playlist order.  The world sees, after the fetch of the
    playlist, for each segment in order its fetch and then (when a callback
    is supplied) the call of the callback with the segment's index and the
    number of segments, and last the write of the file; the callback is so
    called with (0,n), (1,n), ..., (n-1,n). *)
Theorem download_writes_segments_in_playlist_order
    (path : string) (quality : Quality) (ext cb : bool)
    (s s1 : EpisodeSt) (url : string) :
  resolve_playlist quality s = (Ok url, s1) →
  let t0 := trace (e_world s1) ++ [EvGet url segments_headers] in
  let segments :=
    segments_of (Response.text (session_get (trace (e_world s1)) url segments_headers)) in
  let n := length segments in
  let answers := seg_responses cb n t0 (enumerate segments) in
  Forall (λ r, Response.ok r = true) answers →
  let content := concat (Response.content <$> answers) in
  let out := if ext then path +:+ ".mp4" else path in
  ∃ s2,
    Episode_download path quality ext (callback_of cb) s = (Ok out, s2)
    ∧ files (e_world s2) !! out = Some content
    ∧ trace (e_world s2) =
        t0 ++ seg_events cb n (enumerate segments) ++ [EvWrite out content]
    ∧ (cb = true →
         callbacks (seg_events cb n (enumerate segments)) = (λ i, (i, n)) <$> seq 0 n).
Proof.
  intros Hurl t0 segments n answers Hok content out.
  unfold Episode_download, bind. rewrite Hurl.
  unfold io, download_playlist, bar, bind, get_url. simpl.
  fold segments. fold n.
  rewrite (fetch_segments_all_ok cb n (enumerate segments) [] (mkWorld _ _ _));
    simpl; [| exact Hok].
  fold t0. fold answers. fold content. fold out. run.
  eexists. split; [reflexivity |]. simpl.
  split; [apply lookup_insert_eq |].
  split; [by rewrite <- !app_assoc |].
  intros ->. apply callbacks_seg_events.
Qed.

(** C2: when the playlist address has been resolved, the segments before
    [link] are fetched with success and the fetch of [link] answers with a
    status that is not a success, the download raises [FetchingErorr] with
    the text and the status code of that answer.  Since the start of the
    download no file was written (the files are as before), and the fetch of
    [link] is the last thing that happened: it is not tried again and no
    later segment is asked for. *)
Theorem download_aborts_on_failed_segment
    (path : string) (quality : Quality) (ext cb : bool)
    (s s1 : EpisodeSt) (url : string) (before : list string) (link : string)
    (after : list string) :
  resolve_playlist quality s = (Ok url, s1) →
  let t0 := trace (e_world s1) ++ [EvGet url segments_headers] in
  segments_of (Response.text (session_get (trace (e_world s1)) url segments_headers))
    = before ++ link :: after →
  let n := length (before ++ link :: after) in
  Forall (λ r, Response.ok r = true) (seg_responses cb n t0 (enumerate before)) →
  let answer := session_get (t0 ++ seg_events cb n (enumerate before)) link [] in
  Response.ok answer = false →
  ∃ s2,
    Episode_download path quality ext (callback_of cb) s =
      (Raise (FetchingErorr (Response.text answer) (Response.status_code answer)), s2)
    ∧ files (e_world s2) = files (e_world s)
    ∧ trace (e_world s2) = t0 ++ seg_events cb n (enumerate before) ++ [EvGet link []]
    ∧ ∃ evs, trace (e_world s2) = trace (e_world s) ++ evs ∧ pacing evs = [].
Proof.
  intros Hurl t0 Hsegs n Hok answer Hbad.
  destruct (quiet_resolve_playlist quality _ _ _ Hurl) as [Hfiles [evs [Ht Hp]]].
  simpl in Hfiles, Ht.
  unfold Episode_download, bind. rewrite Hurl.
  unfold io, download_playlist, bar, bind, get_url. simpl.
  rewrite Hsegs. fold n. unfold enumerate. rewrite enumerate_from_app. simpl.
  rewrite (fetch_segments_first_failure cb n (enumerate_from 0 before) _ link _ []
             (mkWorld _ _ _)); simpl; [| exact Hok | exact Hbad].
  fold t0. eexists. split; [reflexivity |]. simpl.
  split; [exact Hfiles |]. split; [by rewrite <- ?app_assoc |].
  exists (evs ++ [EvGet url segments_headers]
            ++ seg_events cb n (enumerate_from 0 before) ++ [EvGet link []]).
  split.
  - unfold t0. rewrite Ht, <- ?app_assoc. reflexivity.
  - rewrite !pacing_app, Hp, pacing_seg_events. reflexivity.
Qed.
End DownloadPipeline.

(** Segment reassembly on the example site: payloads A, B, C. *)
Lemma download_writes_segments_witness :
  ∃ s2,
    @Episode_download Site.utils (Site.net EmptyString) "out/ep1" BEST true
        (callback_of true) Site.episode_state = (Ok "out/ep1.mp4", s2)
    ∧ files (e_world s2) !! "out/ep1.mp4" = Some (Site.payload "ABC")
    ∧ callbacks (trace (e_world s2)) = [(0, 3); (1, 3); (2, 3)].
Proof.
  destruct (@download_writes_segments_in_playlist_order Site.utils (Site.net EmptyString)
              "out/ep1" BEST true true Site.episode_state
              (snd (@resolve_playlist Site.utils (Site.net EmptyString) BEST Site.episode_state))
              "https://cdn.example/1080.m3u8")
    as [s2 [Hrun [Hfile [Htrace _]]]].
  - vm_compute. reflexivity.
  - vm_compute. repeat constructor.
  - exists s2. split; [exact Hrun |]. split; [exact Hfile |].
    rewrite Htrace. vm_compute. reflexivity.
Defined.

(** Abort on the second of three segments. *)
Lemma download_aborts_witness :
  ∃ s2,
    @Episode_download Site.utils (Site.net "https://cdn.example/b.ts") "out/ep1" BEST true
        (callback_of true) Site.episode_state
      = (Raise (FetchingErorr "Not Found" 404), s2)
    ∧ files (e_world s2) = ∅
    ∧ callbacks (trace (e_world s2)) = [(0, 3)].
Proof.
  destruct (@download_aborts_on_failed_segment Site.utils (Site.net "https://cdn.example/b.ts")
              "out/ep1" BEST true true Site.episode_state
              (snd (@resolve_playlist Site.utils (Site.net "https://cdn.example/b.ts")
                      BEST Site.episode_state))
              "https://cdn.example/1080.m3u8"
              ["https://cdn.example/a.ts"] "https://cdn.example/b.ts"
              ["https://cdn.example/c.ts"])
    as [s2 [Hrun [Hfile [Htrace _]]]].
  - vm_compute. reflexivity.
  - vm_compute. reflexivity.
  - vm_compute. repeat constructor.
  - vm_compute. reflexivity.
  - exists s2. split; [exact Hrun |]. split; [exact Hfile |].
    rewrite Htrace. vm_compute. reflexivity.
Defined.

(** ** Anime.download *)





Section Batch.
Context `{Utils} `{Net}.


(** A download that succeeds writes the one file it returns the path of. *)
Lemma download_playlist_writes_once (url path : string) (ext : bool) (w w' : World)
    (out : string) :
  download_playlist url path ext None w = (Ok out, w') →
  out = (if ext then path +:+ ".mp4" else path)
  ∧ ∃ evs, trace w' = trace w ++ evs ∧ pacing evs = [inl out].
Proof.
  unfold download_playlist, bind at 1. unfold get_url at 1.
  match goal with |- context [fetch_segments None ?n ?items ?c] =>
    generalize (quiet_fetch_segments n items c); generalize (fetch_segments None n items c)
  end.
  intros loop Hquiet. unfold bind.
  destruct (loop _) as [[content|e] w1] eqn:E; [| discriminate].
  destruct (Hquiet _ _ _ E) as [_ [evs [Ht Hp]]]. simpl in Ht.
  run. intros [= <- <-]. split; [reflexivity |]. simpl.
  eexists. split; [rewrite Ht, <- !app_assoc; reflexivity |].
  simpl. rewrite pacing_app, Hp. reflexivity.
Qed.

Lemma Episode_download_writes_once (episode : Episode.t) (path : string)
    (quality : Quality) (s s' : AnimeSt) (out : string) :
  in_episode episode (Episode_download path quality false None) s = (Ok out, s') →
  out = path ∧ ∃ evs, trace (a_world s') = trace (a_world s) ++ evs ∧ pacing evs = [inl path].
Proof.
  unfold in_episode, Episode_download, bind.
  destruct (resolve_playlist quality _) as [[url|e] s1] eqn:E; [| discriminate].
  destruct (quiet_resolve_playlist _ _ _ _ E) as [_ [evs [Ht Hp]]]. simpl in Ht.
  unfold io. destruct (download_playlist _ _ _ _ _) as [r w'] eqn:E2.
  intros [= -> <-]. simpl.
  destruct (download_playlist_writes_once _ _ _ _ _ _ E2) as [-> [evs' [Ht' Hp']]].
  split; [reflexivity |]. exists (evs ++ evs').
  simpl in *. by rewrite Ht', Ht, pacing_app, Hp, Hp', app_assoc.
Qed.

(** The path of the file of an episode in the directory [dir]. *)
Lemma download_episodes_ok (dir : string) (pause : Z) (quality : Quality)
    (episodes : list Episode.t) (pathes result : list string) (s s' : AnimeSt) :
  download_episodes dir pause quality episodes pathes s = (Ok result, s') →
  let path_of episode := dir +:+ Episode.raw_name episode +:+ ".mp4" in
  result = pathes ++ (path_of <$> episodes)
  ∧ ∃ evs, trace (a_world s') = trace (a_world s) ++ evs
         ∧ pacing evs = flat_map (λ p, [inl p; inr pause]) (path_of <$> episodes).
Proof.
  intros Hrun path_of. revert pathes s Hrun.
  induction episodes as [|episode rest IH]; intros pathes s Hrun.
  - injection Hrun as <- <-. rewrite app_nil_r. split; [done |].
    exists []. by rewrite app_nil_r.
  - cbn [download_episodes] in Hrun. unfold bind at 1 in Hrun.
    destruct (in_episode _ _ s) as [[out|e] s1] eqn:E; [| discriminate].
    destruct (Episode_download_writes_once _ _ _ _ _ _ E) as [_ [evs [Ht Hp]]].
    unfold bind at 1, io, sleep, emit, modify in Hrun. simpl in Hrun.
    apply IH in Hrun as [-> [evs' [Ht' Hp']]]. simpl in Ht'.
    split; [by rewrite <- app_assoc |].
    exists (evs ++ [EvSleep pause] ++ evs').
    split; [rewrite Ht', Ht, <- !app_assoc; reflexivity |].
    rewrite !pacing_app, Hp, Hp'. reflexivity.
Qed.



End Batch.



(** ** Derived fields *)

Section DerivedFields.
Context `{Utils} `{Net}.

(** A derived field that holds a value is read from the object: no
    resolver runs, nothing is fetched, nothing changes. *)
Lemma Anime_getattribute_resolved (name : string) (v : Value) (s : AnimeSt) :
  Anime_dict (a_self s) name = Some v → v ≠ VNone →
  Anime_getattribute name s = (Ok v, s).
Proof.
  intros Hv Hne. unfold Anime_getattribute. run. rewrite Hv. simpl.
  destruct (negb _); [reflexivity |]. by destruct v.
Qed.

Lemma Episode_getattribute_resolved (name : string) (v : Value) (s : EpisodeSt) :
  Episode_dict (e_self s) name = Some v → v ≠ VNone →
  Episode_getattribute name s = (Ok v, s).
Proof.
  intros Hv Hne. unfold Episode_getattribute. run. rewrite Hv. simpl.
  destruct (negb _); [reflexivity |]. by destruct v.
Qed.

(** [get_synopsis] stores what it returns. *)
Lemma Anime_get_synopsis_stores (cache force : bool) (s s' : AnimeSt) (syn : string) :
  Anime_get_synopsis cache force s = (Ok syn, s') →
  Anime.synopsis (a_self s') = Some syn.
Proof.
  unfold Anime_get_synopsis, bind at 1.
  destruct (Anime_get_page cache force s) as [[page|e] s0]; [| discriminate].
  destruct (Element.find_first page ".synopsis") as [el|]; run.
  - by intros [= <- <-].
  - discriminate.
Qed.

(** C4 at its failing input: on a page without a synopsis block the
    failure of the extraction is caught and logged, and then the resolver
    raises [UnboundLocalError] for the local that the [try] block did not
    bind. *)
Theorem get_synopsis_raises_after_logging (cache force : bool) (s s0 : AnimeSt)
    (page : HTML) :
  Anime_get_page cache force s = (Ok page, s0) →
  Element.find_first page ".synopsis" = None →
  Anime_get_synopsis cache force s =
    (Raise (UnboundLocalError "syn"),
     mkAnimeSt (a_self s0)
       (mkWorld (trace (a_world s0))
          (logs (a_world s0) ++ [(ERR, "Failed to get data")])
          (files (a_world s0)))).
Proof.
  intros Hpage Hnone. unfold Anime_get_synopsis, bind at 1.
  rewrite Hpage, Hnone. run. reflexivity.
Qed.

(** The same slip in [get_provider]: without a player frame on the page,
    the line that reports the provider's name reads an unbound local. *)
Lemma get_provider_raises_after_logging (cache force : bool) (s s0 : EpisodeSt)
    (page : HTML) :
  Episode_get_page cache force s = (Ok page, s0) →
  Element.find_first page "#display-player iframe" = None →
  fst (Episode_get_provider cache force s) = Raise (UnboundLocalError "provider_name").
Proof.
  intros Hpage Hnone. unfold Episode_get_provider, bind at 1.
  rewrite Hpage, Hnone. run. reflexivity.
Qed.
End DerivedFields.

Lemma get_synopsis_raises_witness :
  fst (@Anime_get_synopsis (Site.net EmptyString) true false Site.anime_state)
    = Raise (UnboundLocalError "syn").
Proof.
  rewrite (@get_synopsis_raises_after_logging (Site.net EmptyString) true false
             Site.anime_state
             (snd (@Anime_get_page (Site.net EmptyString) true false Site.anime_state))
             Site.show_page); reflexivity.
Defined.

(** C3 at its failing input: the picture of a show is resolved again on
    every read.  The page is fetched once, the image twice, the two reads
    return different images and the attribute is still unset; and an
    episode has no resolver at all for [poster], [tags] and [data]. *)
Theorem picture_is_resolved_again_on_every_read :
  let U := Site.utils in
  let N := Site.net EmptyString in
  let first := @Anime_getattribute U N "picture" Site.anime_state in
  let second := @Anime_getattribute U N "picture" (snd first) in
  fst first = Ok (VImage (Image.mk (Site.payload "1") "jpg" "https://img.example/naruto.jpg"))
  ∧ fst second = Ok (VImage (Image.mk (Site.payload "2") "jpg" "https://img.example/naruto.jpg"))
  ∧ fst first ≠ fst second
  ∧ Anime.picture (a_self (snd second)) = None
  ∧ trace (a_world (snd second)) =
      [EvPage Site.show_url; EvGet "https://img.example/naruto.jpg" [];
       EvGet "https://img.example/naruto.jpg" []]
  ∧ fst (@Episode_getattribute U N "poster" Site.episode_state)
      = Raise (AttributeError "get_poster")
  ∧ fst (@Episode_getattribute U N "tags" Site.episode_state)
      = Raise (AttributeError "get_tags")
  ∧ fst (@Episode_getattribute U N "data" Site.episode_state)
      = Raise (AttributeError "get_data").
Proof. vm_compute. repeat split; congruence. Qed.

(** * Further properties of the scrapper *)

(** ** Anime.get_data *)

Section GetData.
Context `{Utils} `{Net}.

Lemma parse_data_app (els1 els2 : list Element) (data : gmap string string) :
  parse_data (els1 ++ els2) data =
    match parse_data els1 data with
    | (d, None) => parse_data els2 d
    | (d, Some e) => (d, Some e)
    end.
Proof.
  revert data. induction els1 as [|el els1 IH]; intros data; [reflexivity |].
  cbn [parse_data app].
  destruct (if PyStr.contains NL (Element.text el) then _ else _); [reflexivity |].
  apply IH.
Qed.

(** X1: [get_data] never raises: whatever the page holds, it returns a
    dictionary and stores that same dictionary in [self.data]; it writes
    no file. *)
Theorem get_data_never_raises (cache force : bool) (s : AnimeSt) :
  ∃ data s',
    Anime_get_data cache force s = (Ok data, s')
    ∧ Anime.data (a_self s') = Some data
    ∧ files (a_world s') = files (a_world s).
Proof.
  unfold Anime_get_data, bind at 1. rewrite Anime_get_page_run.
  destruct s as [self w].
  destruct (match Anime.cache _ with Some _ => _ | None => _ end) as [page w0] eqn:E.
  assert (Hf : files w0 = files w).
  { simpl in E. destruct (Anime.cache self), force; by injection E as <- <-. }
  destruct (parse_data _ ∅) as [data [e|]]; run; eexists _, _; eauto.
Qed.

(** X2: [get_data] stops at the first element whose text holds no word,
    that is, no line feed and nothing but white space in Python's sense
    (no-break and other Unicode spaces included): the entries of the
    elements before it are returned and stored, the elements after it are
    not looked at, and the failure goes to the error log. *)
Theorem get_data_keeps_entries_before_blank_element (cache force : bool)
    (s s0 : AnimeSt) (page : HTML) (good : list Element) (blank : Element)
    (rest : list Element) (data : gmap string string) :
  Anime_get_page cache force s = (Ok page, s0) →
  Element.find page "#anime-info-list .item" = good ++ blank :: rest →
  parse_data good ∅ = (data, None) →
  PyStr.contains NL (Element.text blank) = false →
  PyStr.split_ws (Element.text blank) = [] →
  Anime_get_data cache force s =
    (Ok data,
     mkAnimeSt (Anime.set_data (Some data) (a_self s0))
       (mkWorld (trace (a_world s0))
          (logs (a_world s0) ++ [(ERR, "Failed to get data")])
          (files (a_world s0)))).
Proof.
  intros Hpage Hfind Hgood Hnl Hws.
  unfold Anime_get_data, bind at 1. rewrite Hpage, Hfind, parse_data_app, Hgood.
  cbn [parse_data]. rewrite Hnl, Hws. run. reflexivity.
Qed.
End GetData.

(** ** Reading a derived field twice *)

Section ReadTwice.
Context `{Utils} `{Net}.

Lemma Anime_get_data_stores (cache force : bool) (s s' : AnimeSt)
    (data : gmap string string) :
  Anime_get_data cache force s = (Ok data, s') → Anime.data (a_self s') = Some data.
Proof.
  unfold Anime_get_data, bind at 1.
  destruct (Anime_get_page cache force s) as [[page|e] s0]; [| discriminate].
  destruct (parse_data _ ∅) as [d [e|]]; run; by intros [= <- <-].
Qed.

Lemma Anime_get_tags_stores (cache force : bool) (s s' : AnimeSt) (tags : TagsValue) :
  Anime_get_tags cache force s = (Ok tags, s') → Anime.tags (a_self s') = Some tags.
Proof.
  unfold Anime_get_tags, bind at 1.
  destruct (Anime_get_page cache force s) as [[page|e] s0]; [| discriminate].
  destruct (Element.find_first page ".tag") as [el|]; [| run; discriminate].
  destruct (tags_dict _ ∅); run; by intros [= <- <-].
Qed.

Lemma Anime_get_episodes_stores (filter : option (Z → bool)) (cache force : bool)
    (s s' : AnimeSt) (episodes : list Episode.t) :
  Anime_get_episodes filter cache force s = (Ok episodes, s') →
  Anime.episodes (a_self s') = Some episodes.
Proof.
  unfold Anime_get_episodes, bind at 1.
  destruct (Anime_get_page cache force s) as [[page|e] s0]; [| discriminate].
  destruct filter as [f|]; [destruct (filter_episodes f _ []) as [l [e|]] |];
    run; by intros [= <- <-].
Qed.

Lemma Episode_get_provider_stores (cache force : bool) (s s' : EpisodeSt)
    (provider : string) :
  Episode_get_provider cache force s = (Ok provider, s') →
  Episode.provider (e_self s') = Some provider.
Proof.
  unfold Episode_get_provider, bind at 1.
  destruct (Episode_get_page cache force s) as [[page|e] s0]; [| discriminate].
  destruct (Element.find_first page "#display-player iframe") as [el|];
    [| run; discriminate].
  destruct (Element.attrs el !! "src") as [p|]; [| run; discriminate].
  destruct (provider_name_of p); run; [by intros [= <- <-] | discriminate].
Qed.

(** X3: A first read of [synopsis], [data], [tags] or [episodes] that returns
    a value leaves the show in a state in which a second read returns the
    same value and changes nothing: no resolver runs, nothing is fetched,
    nothing is logged. *)
Theorem stored_show_field_is_read_back (name : string) (s s1 : AnimeSt) (v : Value) :
  name ∈ ["synopsis"; "data"; "tags"; "episodes"] →
  Anime_getattribute name s = (Ok v, s1) →
  Anime_getattribute name s1 = (Ok v, s1).
Proof.
  intros Hname Hread.
  assert (Anime_dict (a_self s1) name = Some v ∧ v ≠ VNone) as [Hd Hne];
    [| by apply Anime_getattribute_resolved].
  revert Hread. unfold Anime_getattribute, bind at 1. unfold get_state.
  repeat (apply elem_of_cons in Hname as [->|Hname]); [..| by apply elem_of_nil in Hname].
  - unfold Anime_dict at 1. simpl.
    destruct (Anime.synopsis (a_self s)) as [x|] eqn:E; run.
    { intros [= <- <-]. unfold Anime_dict. simpl. by rewrite E. }
    unfold Anime_resolver. simpl. unfold bind.
    destruct (Anime_get_synopsis true false s) as [[x|e] s'] eqn:E1; [| discriminate].
    intros [= <- <-]. unfold Anime_dict. simpl.
    by rewrite (Anime_get_synopsis_stores _ _ _ _ _ E1).
  - unfold Anime_dict at 1. simpl.
    destruct (Anime.data (a_self s)) as [x|] eqn:E; run.
    { intros [= <- <-]. unfold Anime_dict. simpl. by rewrite E. }
    unfold Anime_resolver. simpl. unfold bind.
    destruct (Anime_get_data true false s) as [[x|e] s'] eqn:E1; [| discriminate].
    intros [= <- <-]. unfold Anime_dict. simpl.
    by rewrite (Anime_get_data_stores _ _ _ _ _ E1).
  - unfold Anime_dict at 1. simpl.
    destruct (Anime.tags (a_self s)) as [x|] eqn:E; run.
    { intros [= <- <-]. unfold Anime_dict. simpl. by rewrite E. }
    unfold Anime_resolver. simpl. unfold bind.
    destruct (Anime_get_tags true false s) as [[x|e] s'] eqn:E1; [| discriminate].
    intros [= <- <-]. unfold Anime_dict. simpl.
    by rewrite (Anime_get_tags_stores _ _ _ _ _ E1).
  - unfold Anime_dict at 1. simpl.
    destruct (Anime.episodes (a_self s)) as [x|] eqn:E; run.
    { intros [= <- <-]. unfold Anime_dict. simpl. by rewrite E. }
    unfold Anime_resolver. simpl. unfold bind.
    destruct (Anime_get_episodes None true false _) as [[x|e] s'] eqn:E1; [| discriminate].
    intros [= <- <-]. unfold Anime_dict. simpl.
    by rewrite (Anime_get_episodes_stores _ _ _ _ _ _ E1).
Qed.

(** X4: A first read of the [provider] of an episode that returns a value
    leaves the episode in a state in which a second read returns the same
    value and changes nothing. *)
Theorem stored_provider_is_read_back (s s1 : EpisodeSt) (v : Value) :
  Episode_getattribute "provider" s = (Ok v, s1) →
  Episode_getattribute "provider" s1 = (Ok v, s1).
Proof.
  intros Hread.
  assert (Episode_dict (e_self s1) "provider" = Some v ∧ v ≠ VNone) as [Hd Hne];
    [| by apply Episode_getattribute_resolved].
  revert Hread. unfold Episode_getattribute, bind at 1. unfold get_state.
  unfold Episode_dict at 1. simpl.
  destruct (Episode.provider (e_self s)) as [x|] eqn:E; run.
  { intros [= <- <-]. unfold Episode_dict. simpl. by rewrite E. }
  unfold Episode_resolver. simpl. unfold bind.
  destruct (Episode_get_provider true false s) as [[x|e] s'] eqn:E1; [| discriminate].
  intros [= <- <-]. unfold Episode_dict. simpl.
  by rewrite (Episode_get_provider_stores _ _ _ _ _ E1).
Qed.
End ReadTwice.

(** ** Splitting on a separator *)

Lemma split_go_nonempty (sep : string) (skip : nat) (cur s : string) :
  PyStr.split_go sep skip cur s ≠ [].
Proof.
  revert skip cur. induction s as [|c r IH]; intros skip cur; [done |].
  cbn [PyStr.split_go]. destruct skip; [| apply IH].
  destruct (String.prefix sep (String c r)); [done | apply IH].
Qed.

(** Without the separator in it, a string is its own single piece. *)
Lemma split_absent (sep s : string) :
  PyStr.contains sep s = false → PyStr.split sep s = [s].
Proof.
  unfold PyStr.split.
  assert (Hgo : ∀ cur, PyStr.contains sep s = false →
            PyStr.split_go sep 0 cur s = [String.rev cur +:+ s]);
    [| intros Hno; by rewrite Hgo].
  induction s as [|c r IH]; intros cur Hno.
  - simpl. by rewrite str_app_nil_r.
  - cbn [PyStr.contains] in Hno. apply orb_false_iff in Hno as [Hp Hr].
    cbn [PyStr.split_go]. rewrite Hp, (IH _ Hr), str_rev_cons, str_app_assoc.
    reflexivity.
Qed.

(** With the separator in it, a string has at least two pieces. *)
Lemma split_present (sep s : string) :
  sep ≠ EmptyString → PyStr.contains sep s = true →
  ∃ first second others, PyStr.split sep s = first :: second :: others.
Proof.
  intros Hsep. unfold PyStr.split. generalize EmptyString as cur.
  induction s as [|c r IH]; intros cur Hin.
  - simpl in Hin. destruct sep; [done | discriminate].
  - cbn [PyStr.contains] in Hin. cbn [PyStr.split_go].
    destruct (String.prefix sep (String c r)) eqn:Hp.
    + destruct (PyStr.split_go sep (String.length sep - 1) EmptyString r) as [|x l] eqn:E.
      { by apply split_go_nonempty in E. }
      eauto.
    + simpl in Hin. by apply IH.
Qed.

Lemma provider_name_of_spec (provider : string) :
  is_Some (provider_name_of provider) ↔ PyStr.contains "//" provider = true.
Proof.
  unfold provider_name_of. split.
  - destruct (PyStr.contains "//" provider) eqn:E; [done |].
    rewrite (split_absent _ _ E). by intros [? [=]].
  - intros Hin. destruct (split_present "//" provider) as (a & b & l & ->); [done.. |].
    unfold PyStr.split. destruct (PyStr.split_go "/" 0 EmptyString b) as [|x l'] eqn:E.
    { by apply split_go_nonempty in E. }
    simpl. eauto.
Qed.

(** ** Episode.get_provider *)

Section GetProvider.
Context `{Utils} `{Net}.

(** X5: [get_provider] returns the address of the player frame, and stores it
    in [self.provider], exactly when the page has such a frame, the frame
    has a [src] and that [src] contains [//]; otherwise it raises
    [UnboundLocalError] and leaves [self.provider] as it was.  So a frame
    whose [src] is found but holds no [//] is an error as well. *)
Theorem get_provider_needs_frame_with_double_slash (cache force : bool)
    (s s0 : EpisodeSt) (page : HTML) :
  Episode_get_page cache force s = (Ok page, s0) →
  let src := Element.find_first page "#display-player iframe"
             ≫= λ el, Element.attrs el !! "src" in
  match src with
  | Some provider =>
      if PyStr.contains "//" provider
      then Episode_get_provider cache force s =
             (Ok provider,
              mkEpisodeSt (Episode.set_provider (Some provider) (e_self s0))
                (e_anime s0) (e_world s0))
      else ∃ s', Episode_get_provider cache force s =
                   (Raise (UnboundLocalError "provider_name"), s')
                 ∧ e_self s' = e_self s0
  | None =>
      ∃ s', Episode_get_provider cache force s =
              (Raise (UnboundLocalError "provider_name"), s')
            ∧ e_self s' = e_self s0
  end.
Proof.
  intros Hpage. destruct s0 as [self0 parent0 w0]. simpl.
  assert (Hrun : Episode_get_provider cache force s =
    (let '(provider, provider_name, failure) :=
       match Element.find_first page "#display-player iframe" with
       | None => (None, None, Some (AttributeError "attrs"))
       | Some el =>
           match Element.attrs el !! "src" with
           | None => (None, None, Some (KeyError "src"))
           | Some provider =>
               match provider_name_of provider with
               | None => (Some provider, None, Some IndexError)
               | Some provider_name => (Some provider, Some provider_name, None)
               end
           end
       end in
     except failure "Failed to get provider" ;;
     _ <- local "provider_name" provider_name ;;
     provider <- local "provider" provider ;;
     e_update (Episode.set_provider (Some provider)) ;;
     ret provider) (mkEpisodeSt self0 parent0 w0)).
  { unfold Episode_get_provider, bind at 1. by rewrite Hpage. }
  rewrite Hrun. clear Hrun Hpage.
  destruct (Element.find_first page "#display-player iframe") as [el|]; simpl;
    [| run; eexists; split; reflexivity].
  destruct (Element.attrs el !! "src") as [provider|]; simpl;
    [| run; eexists; split; reflexivity].
  pose proof (provider_name_of_spec provider) as Hspec.
  destruct (PyStr.contains "//" provider).
  - destruct (provider_name_of provider) as [pname|]; [run; reflexivity |].
    destruct (proj2 Hspec eq_refl) as [? [=]].
  - destruct (provider_name_of provider) as [pname|];
      [| run; eexists; split; reflexivity].
    destruct Hspec as [Hspec _]. by discriminate Hspec.
Qed.
End GetProvider.

(** ** Episode.get_picture *)

Section GetPicture.
Context `{Utils} `{Net}.

(** What the loop over the thumbnails can do: it returns without raising,
    leaves the episode, its parent and the files alone, and an image it
    returns was fetched from the [src] of the picture of a thumbnail whose
    link, completed, is the address of the episode. *)
Lemma picture_loop_spec (url : string) (thumbnails : list Element) (s : EpisodeSt) :
  ∃ found s',
    picture_loop url thumbnails s = (Ok found, s')
    ∧ e_self s' = e_self s ∧ e_anime s' = e_anime s
    ∧ files (e_world s') = files (e_world s)
    ∧ ∀ image, found = Some image →
        ∃ thumbnail a href i,
          thumbnail ∈ thumbnails
          ∧ Element.find_first thumbnail "a" = Some a
          ∧ Element.attrs a !! "href" = Some href
          ∧ complete_url href = url
          ∧ Element.find_first thumbnail "img" = Some i
          ∧ Element.attrs i !! "src" = Some (Image.url image)
          ∧ Image.raw image =
              Response.content (session_get (trace (e_world s)) (Image.url image) []).
Proof.
  induction thumbnails as [|thumbnail rest IH].
  - exists None, s. simpl. by repeat split.
  - cbn [picture_loop].
    destruct (Element.find_first thumbnail "a") as [a|] eqn:Ea;
      [| run; eexists _, _; by repeat split].
    destruct (Element.attrs a !! "href") as [href|] eqn:Eh;
      [| run; eexists _, _; by repeat split].
    case_bool_decide as Hurl; simpl.
    + destruct (Element.find_first thumbnail "img") as [i|] eqn:Ei;
        [| run; eexists _, _; by repeat split].
      destruct (Element.attrs i !! "src") as [src|] eqn:Es;
        [| run; eexists _, _; by repeat split].
      unfold get_url. run. eexists _, _. split; [reflexivity |]. simpl.
      repeat split. intros image [= <-]. simpl.
      exists thumbnail, a, href, i. repeat split; try done. left.
    + destruct IH as (found & s' & Hrun & Hself & Hanime & Hfiles & Himg).
      exists found, s'. repeat split; try done.
      intros image Hfound.
      destruct (Himg image Hfound) as (t & a' & h' & i' & Hin & ?).
      exists t, a', h', i'. split; [by right | done].
Qed.

(** X6: [Episode.get_picture] never raises and never changes the episode (the
    picture is not stored) nor the files.  When it finds no picture it
    says so in the error log; when it returns one, the listing of the
    parent's page has a thumbnail whose link, completed, is the address of
    this episode, and the image carries the address found in that
    thumbnail. *)
Theorem episode_picture_comes_from_matching_thumbnail (cache force : bool)
    (s : EpisodeSt) :
  ∃ found s',
    Episode_get_picture cache force s = (Ok found, s')
    ∧ e_self s' = e_self s
    ∧ files (e_world s') = files (e_world s)
    ∧ match found with
      | None => ∃ before, logs (e_world s') = before ++ [(ERR, "Episode vanished from parent")]
      | Some image =>
          ∃ page s0 thumbnail a href i,
            Anime_get_page cache force (mkAnimeSt (e_anime s) (e_world s)) = (Ok page, s0)
            ∧ thumbnail ∈ Element.find page ".js-list-episode-container .holder"
            ∧ Element.find_first thumbnail "a" = Some a
            ∧ Element.attrs a !! "href" = Some href
            ∧ complete_url href = Episode.url (e_self s)
            ∧ Element.find_first thumbnail "img" = Some i
            ∧ Element.attrs i !! "src" = Some (Image.url image)
      end.
Proof.
  unfold Episode_get_picture, bind at 1, in_anime.
  destruct (Anime_get_page cache force _) as [r s0] eqn:Hpage.
  pose proof Hpage as Hquiet. apply quiet_Anime_get_page in Hquiet as [Hf0 _].
  rewrite Anime_get_page_run in Hpage.
  destruct (match Anime.cache _ with Some _ => _ | None => _ end) as [page w0].
  injection Hpage as <- <-. simpl in Hf0. unfold bind at 1, get_state. simpl.
  set (s1 := mkEpisodeSt _ _ _).
  destruct (picture_loop_spec (Episode.url (e_self s))
              (Element.find page ".js-list-episode-container .holder") s1)
    as (found & s' & Hrun & Hself & Hanime & Hfiles & Himg).
  unfold bind. rewrite Hrun. destruct found as [image|]; run.
  - eexists _, _. split; [reflexivity |]. split; [done |].
    split; [by rewrite Hfiles |].
    destruct (Himg image eq_refl) as (t & a & h & i & Hin & Ha & Hh & Hu & Hi & Hs & _).
    eexists page, _, t, a, h, i. by repeat split.
  - eexists _, _. split; [reflexivity |]. simpl. split; [done |].
    split; [by rewrite Hfiles |]. eauto.
Qed.
End GetPicture.

(** ** Anime.get_tags *)

Section GetTags.
Context `{Utils} `{Net}.

Lemma tags_dict_None (items : list Element) (d : gmap string string) :
  tags_dict items d = None ↔
  ∃ item, item ∈ items ∧ Element.attrs item !! "href" = None.
Proof.
  revert d. induction items as [|t rest IH]; intros d; simpl.
  - split; [done | intros (? & []%elem_of_nil & _)].
  - destruct (Element.attrs t !! "href") as [href|] eqn:E.
    + rewrite IH. split.
      * intros (item & Hin & Hno). exists item. split; [by right | done].
      * intros (item & [->|Hin]%elem_of_cons & Hno); [congruence | eauto].
    + split; [| done]. intros _. exists t. split; [left | done].
Qed.

Lemma tags_dict_keeps_keys (items : list Element) (d0 d : gmap string string)
    (name : string) :
  tags_dict items d0 = Some d → is_Some (d0 !! name) → is_Some (d !! name).
Proof.
  revert d0. induction items as [|t rest IH]; intros d0; simpl.
  - by intros [= <-].
  - destruct (Element.attrs t !! "href"); [| done].
    intros Hd Hname. apply (IH _ Hd).
    destruct (decide (Element.text t = name)) as [->|Hne].
    + rewrite lookup_insert_eq. eauto.
    + by rewrite lookup_insert_ne.
Qed.

Lemma tags_dict_Some (items : list Element) (d0 d : gmap string string) :
  tags_dict items d0 = Some d →
  (∀ t, t ∈ items → is_Some (d !! Element.text t))
  ∧ ∀ name url, d !! name = Some url →
      d0 !! name = Some url
      ∨ ∃ t href, t ∈ items ∧ Element.text t = name
                  ∧ Element.attrs t !! "href" = Some href ∧ url = complete_url href.
Proof.
  revert d0. induction items as [|t rest IH]; intros d0; simpl.
  - intros [= <-]. split; [by intros ? ?%elem_of_nil | eauto].
  - destruct (Element.attrs t !! "href") as [href|] eqn:E; [| done].
    intros Hd. destruct (IH _ Hd) as [Hkeys Hvals]. split.
    + intros t' [Heq|Hin]%elem_of_cons; [subst t' | by apply Hkeys].
      apply (tags_dict_keeps_keys _ _ _ _ Hd). rewrite lookup_insert_eq. eauto.
    + intros name url Hlook. destruct (Hvals _ _ Hlook) as [Hin|(t' & h & Hin & ?)].
      * destruct (decide (Element.text t = name)) as [<-|Hne].
        -- rewrite lookup_insert_eq in Hin. injection Hin as <-.
           right. exists t, href. split; [left | done].
        -- rewrite lookup_insert_ne in Hin by done. by left.
      * right. exists t', h. split; [by right | done].
Qed.

(** X7: When some item of the tag list has no [href], [get_tags] does not
    raise: it logs the failure and returns, and stores in [self.tags], the
    list of the items themselves instead of a dictionary. *)
Theorem get_tags_stores_items_when_href_is_missing (cache force : bool)
    (s s0 : AnimeSt) (page : HTML) (el item : Element) :
  Anime_get_page cache force s = (Ok page, s0) →
  Element.find_first page ".tag" = Some el →
  item ∈ Element.find el "item" →
  Element.attrs item !! "href" = None →
  Anime_get_tags cache force s =
    (Ok (TagElems (Element.find el "item")),
     mkAnimeSt (Anime.set_tags (Some (TagElems (Element.find el "item"))) (a_self s0))
       (mkWorld (trace (a_world s0))
          (logs (a_world s0) ++ [(ERR, "Failed to get tags")])
          (files (a_world s0)))).
Proof.
  intros Hpage Hel Hin Hno. unfold Anime_get_tags, bind at 1. rewrite Hpage, Hel.
  assert (tags_dict (Element.find el "item") ∅ = None) as ->.
  { apply tags_dict_None. eauto. }
  run. reflexivity.
Qed.

(** X8: When every item of the tag list has an [href], [get_tags] returns a
    dictionary whose keys are exactly the texts of the items and whose
    values are completed links of items with that text; nothing is logged
    and the dictionary is stored in [self.tags]. *)
Theorem get_tags_maps_item_texts_to_completed_links (cache force : bool)
    (s s0 : AnimeSt) (page : HTML) (el : Element) :
  Anime_get_page cache force s = (Ok page, s0) →
  Element.find_first page ".tag" = Some el →
  (∀ item, item ∈ Element.find el "item" → is_Some (Element.attrs item !! "href")) →
  ∃ d,
    Anime_get_tags cache force s =
      (Ok (TagDict d),
       mkAnimeSt (Anime.set_tags (Some (TagDict d)) (a_self s0)) (a_world s0))
    ∧ (∀ item, item ∈ Element.find el "item" → is_Some (d !! Element.text item))
    ∧ ∀ name url, d !! name = Some url →
        ∃ item href, item ∈ Element.find el "item" ∧ Element.text item = name
                     ∧ Element.attrs item !! "href" = Some href
                     ∧ url = complete_url href.
Proof.
  intros Hpage Hel Hall. unfold Anime_get_tags, bind at 1. rewrite Hpage, Hel.
  destruct (tags_dict (Element.find el "item") ∅) as [d|] eqn:E.
  - destruct (tags_dict_Some _ _ _ E) as [Hkeys Hvals].
    exists d. run. destruct s0 as [self0 [t l f]]. simpl.
    split; [reflexivity |]. split; [exact Hkeys |].
    intros name url Hlook. destruct (Hvals _ _ Hlook) as [Hempty|Hitem]; [| done].
    by rewrite lookup_empty in Hempty.
  - apply tags_dict_None in E as (item & Hin & Hno).
    destruct (Hall item Hin) as [h Hh]. congruence.
Qed.
End GetTags.

(** ** Anime.get_episodes *)

Section GetEpisodes.
Context `{Utils} `{Net}.


End GetEpisodes.

(** ** Reading attributes: no file is touched *)

Section QuietReads.
Context `{Utils} `{Net}.

Lemma quiet_Anime_get_synopsis (cache force : bool) : quiet (Anime_get_synopsis cache force).
Proof.
  unfold Anime_get_synopsis.
  apply quiet_bind; [apply quiet_Anime_get_page | intros page]. repeat quiet_step.
Qed.

Lemma quiet_Anime_get_data (cache force : bool) : quiet (Anime_get_data cache force).
Proof.
  unfold Anime_get_data.
  apply quiet_bind; [apply quiet_Anime_get_page | intros page]. repeat quiet_step.
Qed.

Lemma quiet_Anime_get_picture (cache force : bool) : quiet (Anime_get_picture cache force).
Proof.
  unfold Anime_get_picture.
  apply quiet_bind; [apply quiet_Anime_get_page | intros page]. repeat quiet_step.
Qed.

Lemma quiet_Anime_get_poster (cache force : bool) : quiet (Anime_get_poster cache force).
Proof.
  unfold Anime_get_poster.
  apply quiet_bind; [apply quiet_Anime_get_page | intros page]. repeat quiet_step.
Qed.

Lemma quiet_Anime_get_tags (cache force : bool) : quiet (Anime_get_tags cache force).
Proof.
  unfold Anime_get_tags.
  apply quiet_bind; [apply quiet_Anime_get_page | intros page]. repeat quiet_step.
Qed.

Lemma quiet_Anime_get_episodes (filter : option (Z → bool)) (cache force : bool) :
  quiet (Anime_get_episodes filter cache force).
Proof.
  unfold Anime_get_episodes.
  apply quiet_bind; [apply quiet_Anime_get_page | intros page]. repeat quiet_step.
Qed.

Lemma quiet_picture_loop (url : string) (thumbnails : list Element) :
  quiet (picture_loop url thumbnails).
Proof.
  induction thumbnails as [|thumbnail rest IH]; simpl; [apply quiet_ret |].
  repeat quiet_step.
Qed.

Lemma quiet_Episode_get_picture (cache force : bool) :
  quiet (Episode_get_picture cache force).
Proof.
  unfold Episode_get_picture.
  apply quiet_bind; [apply quiet_in_anime, quiet_Anime_get_page | intros page].
  apply quiet_bind; [apply quiet_get_state | intros s].
  apply quiet_bind; [apply quiet_picture_loop | intros found].
  repeat quiet_step.
Qed.

(** X10: Reading an attribute of a show or of an episode, whatever its name and
    whether or not a resolver runs and fails, writes no file and takes no
    pause. *)
Theorem attribute_reads_write_no_file (name : string) :
  quiet (Anime_getattribute name) ∧ quiet (Episode_getattribute name).
Proof.
  split.
  - unfold Anime_getattribute.
    apply quiet_bind; [apply quiet_get_state | intros s].
    apply quiet_bind; [repeat quiet_step | intros value].
    destruct (negb _); [apply quiet_ret |].
    destruct value; try apply quiet_ret.
    apply quiet_bind; [repeat quiet_step | intros _].
    unfold Anime_resolver.
    repeat case_bool_decide;
      first [ apply quiet_raise
            | apply quiet_bind; [| intros ?; apply quiet_ret] ];
      auto using quiet_Anime_get_synopsis, quiet_Anime_get_data, quiet_Anime_get_picture,
        quiet_Anime_get_poster, quiet_Anime_get_tags, quiet_Anime_get_episodes.
  - unfold Episode_getattribute.
    apply quiet_bind; [apply quiet_get_state | intros s].
    apply quiet_bind; [repeat quiet_step | intros value].
    destruct (negb _); [apply quiet_ret |].
    destruct value; try apply quiet_ret.
    unfold Episode_resolver.
    repeat case_bool_decide;
      first [ apply quiet_raise
            | apply quiet_bind; [| intros ?; apply quiet_ret] ];
      auto using quiet_Episode_get_picture, quiet_Episode_get_provider.
Qed.
End QuietReads.

(** ** Reading attributes: the page is fetched once *)

Lemma page_fetches_app (evs1 evs2 : list event) :
  page_fetches (evs1 ++ evs2) = page_fetches evs1 ++ page_fetches evs2.
Proof. apply omap_app. Qed.

Section PageOnce.
Context `{Utils} `{Net}.

Lemma page_once_silent {A} (m : M AnimeSt A) :
  (∀ s r s', m s = (r, s') →
     Anime.cache (a_self s') = Anime.cache (a_self s)
     ∧ ∃ evs, trace (a_world s') = trace (a_world s) ++ evs ∧ page_fetches evs = []) →
  page_once m.
Proof.
  intros Hm s r s' Hrun. destruct (Hm _ _ _ Hrun) as [Hc [evs [Ht Hp]]].
  exists evs. split; [done |]. rewrite Hc, Hp.
  destruct (Anime.cache (a_self s)); simpl; [done |]. split; [lia | done].
Qed.

Lemma page_once_ret {A} (a : A) : page_once (ret a).
Proof.
  apply page_once_silent. intros s r s' [= <- <-]. split; [done |].
  exists []. by rewrite app_nil_r.
Qed.

Lemma page_once_raise {A} (e : exn) : page_once (raise e : M AnimeSt A).
Proof.
  apply page_once_silent. intros s r s' [= <- <-]. split; [done |].
  exists []. by rewrite app_nil_r.
Qed.

Lemma page_once_get_state : page_once get_state.
Proof.
  apply page_once_silent. intros s r s' [= <- <-]. split; [done |].
  exists []. by rewrite app_nil_r.
Qed.

Lemma page_once_local {A} (name : string) (v : option A) :
  page_once (local name v).
Proof. destruct v; [apply page_once_ret | apply page_once_raise]. Qed.

Lemma page_once_log (l : level) (msg : string) : page_once (io (log_at l msg)).
Proof.
  apply page_once_silent. intros s r s' [= <- <-]. split; [done |].
  exists []. simpl. by rewrite app_nil_r.
Qed.

Lemma page_once_except (failure : option exn) (msg : string) :
  page_once (except failure msg).
Proof. destruct failure; [apply page_once_log | apply page_once_ret]. Qed.

Lemma page_once_get_url (url : string) (hdrs : headers) :
  page_once (io (get_url url hdrs)).
Proof.
  apply page_once_silent. intros s r s' [= <- <-]. split; [done |].
  by exists [EvGet url hdrs].
Qed.

Lemma page_once_a_update (f : Anime.t → Anime.t) :
  (∀ a, Anime.cache (f a) = Anime.cache a) → page_once (a_update f).
Proof.
  intros Hf. apply page_once_silent. intros s r s' [= <- <-]. split; [apply Hf |].
  exists []. simpl. by rewrite app_nil_r.
Qed.

Lemma page_once_bind {A B} (m : M AnimeSt A) (k : A → M AnimeSt B) :
  page_once m → (∀ a, page_once (k a)) → page_once (bind m k).
Proof.
  intros Hm Hk s r s'. unfold bind.
  destruct (m s) as [[a|e] s1] eqn:E; intros Hrun.
  - destruct (Hm _ _ _ E) as [evs [Ht Hc]].
    destruct (Hk a _ _ _ Hrun) as [evs' [Ht' Hc']].
    exists (evs ++ evs'). split; [by rewrite Ht', Ht, app_assoc |].
    rewrite page_fetches_app, length_app.
    destruct (Anime.cache (a_self s)) as [page|].
    + destruct Hc as [Hp Hc]. rewrite Hc in Hc'. destruct Hc' as [Hp' Hc'].
      by rewrite Hp, Hp'.
    + destruct Hc as [Hlen Hsome].
      destruct (page_fetches evs) as [|u l] eqn:Ep.
      * destruct (Anime.cache (a_self s1)) as [page|].
        -- destruct Hc' as [-> Hc']. simpl. split; [lia |].
           intros _. rewrite Hc'. eauto.
        -- simpl. exact Hc'.
      * destruct (Hsome ltac:(done)) as [page Hpage]. rewrite Hpage in Hc'.
        destruct Hc' as [-> Hc']. split; [simpl in *; lia |].
        intros _. rewrite Hc'. eauto.
  - injection Hrun as <- <-. exact (Hm _ _ _ E).
Qed.

(** The page of a show is fetched when none is cached, and then kept. *)
Lemma page_once_Anime_get_page : page_once (Anime_get_page true false).
Proof.
  intros s r s'. rewrite Anime_get_page_run.
  destruct (Anime.cache (a_self s)) as [page|] eqn:E; simpl; intros [= <- <-]; simpl.
  - exists []. by rewrite app_nil_r.
  - exists [EvPage (Anime.url (a_self s))]. simpl. split; [done |]. split; [lia | eauto].
Qed.

Ltac page_step :=
  match goal with
  | |- page_once (bind _ _) => apply page_once_bind; [| intros ?]
  | |- page_once (Anime_get_page true false) => apply page_once_Anime_get_page
  | |- page_once (a_update _) => apply page_once_a_update; intros ?; reflexivity
  | |- page_once (match ?x with _ => _ end) => destruct x
  | |- page_once (let '(_, _) := ?x in _) => destruct x
  | |- page_once _ =>
      first [ apply page_once_ret | apply page_once_raise | apply page_once_get_state
            | apply page_once_local | apply page_once_log | apply page_once_except
            | apply page_once_get_url ]
  end.

Lemma page_once_resolver (name : string) : page_once (Anime_resolver name).
Proof.
  unfold Anime_resolver.
  repeat case_bool_decide;
    [ unfold Anime_get_synopsis | unfold Anime_get_data | unfold Anime_get_picture
    | unfold Anime_get_poster | unfold Anime_get_tags | unfold Anime_get_episodes | ];
    repeat page_step.
Qed.

Lemma page_once_getattribute (name : string) : page_once (Anime_getattribute name).
Proof.
  unfold Anime_getattribute. repeat page_step; apply page_once_resolver.
Qed.

(** X11: Two reads of attributes of a show, of the same or of different names,
    fetch the page of the show at most once between them: the first
    resolver that needs the page caches it, and every later one reuses
    it. *)
Theorem two_reads_fetch_the_page_at_most_once (name1 name2 : string)
    (s s1 s2 : AnimeSt) (r1 r2 : result Value) :
  Anime_getattribute name1 s = (r1, s1) →
  Anime_getattribute name2 s1 = (r2, s2) →
  ∃ evs, trace (a_world s2) = trace (a_world s) ++ evs
       ∧ length (page_fetches evs) ≤ 1.
Proof.
  intros Hr1 Hr2.
  destruct (page_once_getattribute name1 _ _ _ Hr1) as [evs1 [Ht1 Hc1]].
  destruct (page_once_getattribute name2 _ _ _ Hr2) as [evs2 [Ht2 Hc2]].
  exists (evs1 ++ evs2). split; [by rewrite Ht2, Ht1, app_assoc |].
  rewrite page_fetches_app, length_app.
  destruct (Anime.cache (a_self s)) as [page|].
  - destruct Hc1 as [-> Hc1]. rewrite Hc1 in Hc2. destruct Hc2 as [-> _]. simpl. lia.
  - destruct Hc1 as [Hlen Hsome].
    destruct (page_fetches evs1) as [|u l] eqn:Ep.
    + destruct (Anime.cache (a_self s1)); [destruct Hc2 as [-> _]; simpl; lia |].
      simpl. tauto.
    + destruct (Hsome ltac:(done)) as [page Hpage]. rewrite Hpage in Hc2.
      destruct Hc2 as [-> _]. simpl in *. lia.
Qed.
End PageOnce.

(** ** Downloads and the file system *)

Section Files.
Context `{Utils} `{Net}.

Lemma quiet_fetch_segments_callback (cb : bool) (lenght : nat)
    (items : list (nat * string)) (content : bytes) :
  quiet (fetch_segments (callback_of cb) lenght items content).
Proof.
  revert content. induction items as [|[i link] rest IH]; intros content; simpl.
  - apply quiet_ret.
  - apply quiet_bind; [apply quiet_get_url | intros segment].
    destruct (negb _); [apply quiet_raise |].
    apply quiet_bind; [| intros _; apply IH].
    destruct cb; simpl; [| apply quiet_ret].
    intros w r w' [= <- <-]. split; [done |]. by exists [EvCallback i lenght].
Qed.

Lemma download_playlist_files (url path : string) (ext cb : bool) (w w' : World)
    (r : result string) :
  download_playlist url path ext (callback_of cb) w = (r, w') →
  match r with
  | Raise _ => files w' = files w
  | Ok out =>
      out = (if ext then path +:+ ".mp4" else path)
      ∧ ∃ content, files w' = <[out := content]> (files w)
  end.
Proof.
  unfold download_playlist, bind at 1. unfold get_url at 1.
  match goal with |- context [fetch_segments ?c ?n ?items ?acc] =>
    generalize (quiet_fetch_segments_callback cb n items acc);
    generalize (fetch_segments c n items acc)
  end.
  intros loop Hquiet. unfold bind.
  destruct (loop _) as [[content|e] w1] eqn:E.
  - destruct (Hquiet _ _ _ E) as [Hf _]. simpl in Hf.
    run. intros [= <- <-]. split; [reflexivity |]. simpl. rewrite Hf. eauto.
  - destruct (Hquiet _ _ _ E) as [Hf _]. simpl in Hf. by intros [= <- <-].
Qed.

Lemma Episode_download_files (path : string) (quality : Quality) (ext cb : bool)
    (s s' : EpisodeSt) (r : result string) :
  Episode_download path quality ext (callback_of cb) s = (r, s') →
  match r with
  | Raise _ => files (e_world s') = files (e_world s)
  | Ok out =>
      out = (if ext then path +:+ ".mp4" else path)
      ∧ ∃ content, files (e_world s') = <[out := content]> (files (e_world s))
  end.
Proof.
  unfold Episode_download, bind.
  destruct (resolve_playlist quality s) as [[url|e] s1] eqn:E.
  - destruct (quiet_resolve_playlist _ _ _ _ E) as [Hf _]. simpl in Hf.
    unfold io. destruct (download_playlist _ _ _ _ _) as [r0 w'] eqn:E2.
    intros [= <- <-]. simpl. apply download_playlist_files in E2.
    simpl in E2. by rewrite <- Hf.
  - destruct (quiet_resolve_playlist _ _ _ _ E) as [Hf _]. by intros [= <- <-].
Qed.

(** X12: A download changes the file system in one of two ways only: when it
    raises, whatever the step that failed, the files are exactly as before;
    when it returns, the one file at the returned path was written and
    every other file is as before. *)
Theorem download_is_all_or_nothing (path : string) (quality : Quality) (ext cb : bool)
    (s s' : EpisodeSt) (r : result string) :
  Episode_download path quality ext (callback_of cb) s = (r, s') →
  match r with
  | Raise _ => files (e_world s') = files (e_world s)
  | Ok out =>
      out = (if ext then path +:+ ".mp4" else path)
      ∧ ∃ content, files (e_world s') = <[out := content]> (files (e_world s))
  end.
Proof. apply Episode_download_files. Qed.

(** X13: A playlist without any segment line is not an error: the download
    fetches nothing after the playlist, never calls the callback, whatever
    it is, and writes an empty file. *)
Theorem download_of_empty_playlist_writes_empty_file (path : string)
    (quality : Quality) (ext : bool) (looping_callback : option callback)
    (s s1 : EpisodeSt) (url : string) :
  resolve_playlist quality s = (Ok url, s1) →
  segments_of (Response.text (session_get (trace (e_world s1)) url segments_headers)) = [] →
  let out := if ext then path +:+ ".mp4" else path in
  ∃ s2,
    Episode_download path quality ext looping_callback s = (Ok out, s2)
    ∧ files (e_world s2) !! out = Some []
    ∧ trace (e_world s2) =
        trace (e_world s1) ++ [EvGet url segments_headers; EvWrite out []].
Proof.
  intros Hurl Hsegs out. unfold Episode_download, bind. rewrite Hurl.
  unfold io, download_playlist, bar, bind, get_url. simpl. rewrite Hsegs. simpl.
  run. eexists. split; [reflexivity |]. simpl.
  split; [apply lookup_insert_eq |]. by rewrite <- app_assoc.
Qed.
End Files.

(** ** The batch download when an episode fails *)

Section BatchFailure.
Context `{Utils} `{Net}.

Lemma download_episodes_app (dir : string) (pause : Z) (quality : Quality)
    (eps1 eps2 : list Episode.t) (pathes : list string) (s : AnimeSt) :
  download_episodes dir pause quality (eps1 ++ eps2) pathes s =
    match download_episodes dir pause quality eps1 pathes s with
    | (Ok done, s1) => download_episodes dir pause quality eps2 done s1
    | (Raise e, s1) => (Raise e, s1)
    end.
Proof.
  revert pathes s. induction eps1 as [|episode rest IH]; intros pathes s; [reflexivity |].
  cbn [download_episodes app]. unfold bind.
  destruct (in_episode _ _ s) as [[out|e] s1]; [| reflexivity].
  unfold io, sleep, emit, modify. simpl. apply IH.
Qed.

Lemma in_episode_download_files (episode : Episode.t) (path : string)
    (quality : Quality) (s s' : AnimeSt) (r : result string) :
  in_episode episode (Episode_download path quality false None) s = (r, s') →
  match r with
  | Raise _ => files (a_world s') = files (a_world s)
  | Ok _ => ∃ content, files (a_world s') = <[path := content]> (files (a_world s))
  end.
Proof.
  unfold in_episode.
  destruct (Episode_download _ _ _ _ _) as [r0 s0] eqn:E. intros [= <- <-].
  apply (Episode_download_files path quality false false) in E.
  destruct r0 as [out|e]; simpl in *; [by destruct E as [-> ?] | done].
Qed.

Lemma download_episodes_files (dir : string) (pause : Z) (quality : Quality)
    (episodes : list Episode.t) (pathes done : list string) (s s' : AnimeSt) :
  download_episodes dir pause quality episodes pathes s = (Ok done, s') →
  (∀ p, is_Some (files (a_world s) !! p) → is_Some (files (a_world s') !! p))
  ∧ ∀ episode, episode ∈ episodes →
      is_Some (files (a_world s') !! (dir +:+ Episode.raw_name episode +:+ ".mp4")).
Proof.
  revert pathes s. induction episodes as [|episode rest IH]; intros pathes s Hrun.
  - injection Hrun as <- <-. split; [done | by intros ? ?%elem_of_nil].
  - cbn [download_episodes] in Hrun. unfold bind at 1 in Hrun.
    destruct (in_episode _ _ s) as [[out|e] s1] eqn:E; [| discriminate].
    apply in_episode_download_files in E as [content Hfiles].
    unfold bind at 1, io, sleep, emit, modify in Hrun. simpl in Hrun.
    apply IH in Hrun as [Hkeep Hnew]. simpl in Hkeep.
    assert (Hgrow : ∀ p, is_Some (files (a_world s1) !! p) →
                         is_Some (files (a_world s') !! p)) by exact Hkeep.
    split.
    + intros p Hp. apply Hgrow. rewrite Hfiles.
      destruct (decide (dir +:+ Episode.raw_name episode +:+ ".mp4" = p)) as [->|Hne].
      * rewrite lookup_insert_eq. eauto.
      * by rewrite lookup_insert_ne.
    + intros ep [->|Hin]%elem_of_cons; [| by apply Hnew].
      apply Hgrow. rewrite Hfiles, lookup_insert_eq. eauto.
Qed.

(** X14: When the download of an episode raises, the batch download raises the
    same exception at once: the episodes after it are not downloaded, the
    failed episode leaves no file, and the files of the episodes before it
    stay where they were written (nothing is rolled back). *)
Theorem batch_download_stops_at_failing_episode (path : string) (pause : Z)
    (quality : Quality) (c : ascii) (s s0 s1 s2 : AnimeSt)
    (before : list Episode.t) (episode : Episode.t) (after : list Episode.t)
    (pathes : list string) (e : exn) :
  last_char path = Some c →
  let dir := if bool_decide (c = "/"%char) || bool_decide (c = "\"%char)
             then path else path +:+ "/" in
  Anime_get_episodes None true false s = (Ok (before ++ episode :: after), s0) →
  download_episodes dir pause quality before [] s0 = (Ok pathes, s1) →
  in_episode episode
    (Episode_download (dir +:+ Episode.raw_name episode +:+ ".mp4") quality false None) s1
    = (Raise e, s2) →
  Anime_download path pause quality s = (Raise e, s2)
  ∧ files (a_world s2) = files (a_world s1)
  ∧ ∀ done, done ∈ before →
      is_Some (files (a_world s2) !! (dir +:+ Episode.raw_name done +:+ ".mp4")).
Proof.
  intros Hc dir Heps Hbefore Hfail.
  pose proof (in_episode_download_files _ _ _ _ _ _ Hfail) as Hfiles. simpl in Hfiles.
  split; [| split; [exact Hfiles |]].
  - unfold Anime_download. unfold bind at 1. rewrite Hc.
    assert (Hdir : (if bool_decide (c = "/"%char) || bool_decide (c = "\"%char)
                    then ret path else ret (path +:+ "/")) s = (Ok dir, s)).
    { unfold dir. by destruct (_ || _). }
    rewrite Hdir. unfold bind. rewrite Heps, download_episodes_app, Hbefore.
    cbn [download_episodes]. unfold bind. by rewrite Hfail.
  - intros done Hin. rewrite Hfiles.
    by apply (download_episodes_files _ _ _ _ _ _ _ _ Hbefore).
Qed.
End BatchFailure.

(** ** Anime.get_picture and Anime.get_poster *)













(** In a style with two [url(] after one another, the address stops where
    the second one starts. *)
Example poster_src_stops_at_next_url :
  poster_src "a url(x url(y) c" = Some "x "
  ∧ cut_at_url "a url(x url(y) c" "a " "x " "url(y) c".
Proof. vm_compute. repeat split; auto. Qed.

Section Images.
Context `{Utils} `{Net}.


End Images.

(** ** The further properties on the example pages *)

Lemma get_data_keeps_entries_witness :
  let N := Catalog.net Catalog.good_tags Catalog.frame false in
  fst (@Anime_get_data N true false Catalog.anime_state)
    = Ok (<["Status" := "finished airing"]> (<["Format" := "TV"]> ∅)).
Proof.
  intros N.
  rewrite (@get_data_keeps_entries_before_blank_element N true false
             Catalog.anime_state
             (snd (@Anime_get_page N true false Catalog.anime_state))
             (Catalog.show_page Catalog.good_tags)
             [Site.leaf ("Format" +:+ NL +:+ "TV") [];
              Site.leaf ("Status" +:+ Catalog.nbsp +:+ "finished airing") []]
             (Site.leaf (" " +:+ Catalog.nbsp) [])
             [Site.leaf ("Studio" +:+ NL +:+ "Pierrot") []]
             (<["Status" := "finished airing"]> (<["Format" := "TV"]> ∅)));
    vm_compute; reflexivity.
Defined.

Lemma stored_show_field_witness :
  let N := Catalog.net Catalog.good_tags Catalog.frame false in
  let first := @Anime_getattribute Site.utils N "synopsis" Catalog.anime_state in
  @Anime_getattribute Site.utils N "synopsis" (snd first)
    = (Ok (VStr "A boy and a fox."), snd first).
Proof.
  intros N first.
  apply (@stored_show_field_is_read_back Site.utils N "synopsis" Catalog.anime_state).
  - by left.
  - vm_compute. reflexivity.
Defined.

Lemma stored_provider_witness :
  let N := Catalog.net Catalog.good_tags Catalog.frame false in
  let first := @Episode_getattribute Site.utils N "provider" Catalog.episode_state in
  @Episode_getattribute Site.utils N "provider" (snd first)
    = (Ok (VStr Catalog.frame), snd first).
Proof.
  intros N first.
  apply (@stored_provider_is_read_back Site.utils N Catalog.episode_state).
  vm_compute. reflexivity.
Defined.

Lemma get_provider_witness :
  let N := Catalog.net Catalog.good_tags Catalog.frame false in
  let s0 := snd (@Episode_get_page N true false Catalog.episode_state) in
  @Episode_get_provider N true false Catalog.episode_state =
    (Ok Catalog.frame,
     mkEpisodeSt (Episode.set_provider (Some Catalog.frame) (e_self s0))
       (e_anime s0) (e_world s0)).
Proof.
  intros N s0.
  refine (@get_provider_needs_frame_with_double_slash N true false
            Catalog.episode_state s0 (Catalog.episode_page Catalog.frame) _).
  vm_compute. reflexivity.
Defined.

Lemma get_tags_stores_items_witness :
  let N := Catalog.net Catalog.bad_tags Catalog.frame false in
  fst (@Anime_get_tags Site.utils N true false Catalog.anime_state)
    = Ok (TagElems Catalog.bad_tags).
Proof.
  intros N.
  rewrite (@get_tags_stores_items_when_href_is_missing Site.utils N true false
             Catalog.anime_state
             (snd (@Anime_get_page N true false Catalog.anime_state))
             (Catalog.show_page Catalog.bad_tags)
             (Elem EmptyString ∅ [] [("item", Catalog.bad_tags)])
             (Site.leaf "Ninja" [])).
  - reflexivity.
  - vm_compute. reflexivity.
  - reflexivity.
  - right. left.
  - reflexivity.
Defined.

Lemma get_tags_maps_witness :
  let N := Catalog.net Catalog.good_tags Catalog.frame false in
  ∃ d, fst (@Anime_get_tags Site.utils N true false Catalog.anime_state) = Ok (TagDict d)
       ∧ is_Some (d !! "Ninja").
Proof.
  intros N.
  destruct (@get_tags_maps_item_texts_to_completed_links Site.utils N true false
              Catalog.anime_state
              (snd (@Anime_get_page N true false Catalog.anime_state))
              (Catalog.show_page Catalog.good_tags)
              (Elem EmptyString ∅ [] [("item", Catalog.good_tags)]))
    as (d & Hrun & Hkeys & _).
  - vm_compute. reflexivity.
  - reflexivity.
  - intros item Hin. change (Element.find _ "item") with Catalog.good_tags in Hin.
    apply elem_of_cons in Hin as [->|Hin]; [vm_compute; eauto |].
    apply list_elem_of_singleton in Hin as ->. vm_compute. eauto.
  - exists d. split; [by rewrite Hrun |].
    apply (Hkeys (Site.leaf "Ninja" [("href", "/tag/ninja")])). right. left.
Defined.

Lemma two_reads_witness :
  let N := Catalog.net Catalog.good_tags Catalog.frame false in
  let first := @Anime_getattribute Site.utils N "synopsis" Catalog.anime_state in
  let second := @Anime_getattribute Site.utils N "picture" (snd first) in
  ∃ evs, trace (a_world (snd second)) = trace (a_world Catalog.anime_state) ++ evs
       ∧ length (page_fetches evs) ≤ 1.
Proof.
  intros N first second.
  apply (@two_reads_fetch_the_page_at_most_once Site.utils N "synopsis" "picture"
           Catalog.anime_state (snd first) (snd second) (fst first) (fst second));
    vm_compute; reflexivity.
Defined.

Lemma download_is_all_or_nothing_witness :
  let N := Site.net "https://cdn.example/b.ts" in
  let run := @Episode_download Site.utils N "out/ep1" BEST true (callback_of true)
               Site.episode_state in
  files (e_world (snd run)) = files (e_world Site.episode_state).
Proof.
  intros N run.
  refine (@download_is_all_or_nothing Site.utils N "out/ep1" BEST true true
            Site.episode_state (snd run) (Raise (FetchingErorr "Not Found" 404)) _).
  vm_compute. reflexivity.
Defined.

Lemma download_of_empty_playlist_witness :
  let N := Catalog.net Catalog.good_tags Catalog.frame false in
  ∃ s2,
    @Episode_download Site.utils N "out/e" WORST true (Some observer) Catalog.episode_state
      = (Ok "out/e.mp4", s2)
    ∧ files (e_world s2) !! "out/e.mp4" = Some [].
Proof.
  intros N.
  destruct (@download_of_empty_playlist_writes_empty_file Site.utils N "out/e" WORST true
              (Some observer) Catalog.episode_state
              (snd (@resolve_playlist Site.utils N WORST Catalog.episode_state))
              "https://cdn.example/480.m3u8")
    as (s2 & Hrun & Hfile & _).
  - vm_compute. reflexivity.
  - vm_compute. reflexivity.
  - exists s2. split; [exact Hrun | exact Hfile].
Defined.

Lemma batch_download_stops_witness :
  let N := Catalog.net Catalog.good_tags Catalog.frame true in
  let run := @Anime_download Site.utils N "out" 5 BEST Catalog.anime_state in
  fst run = Raise (FetchingErorr "Busy" 503)
  ∧ is_Some (files (a_world (snd run)) !! "out/9520-naruto-01_vostfr.mp4").
Proof.
  intros N run.
  set (s0 := snd (@Anime_get_episodes Site.utils N None true false Catalog.anime_state)).
  set (ep1 := @Episode_new Site.utils Site.ep1_url).
  set (ep2 := @Episode_new Site.utils Site.ep2_url).
  set (s1 := snd (@download_episodes Site.utils N "out/" 5 BEST [ep1] [] s0)).
  set (s2 := snd (@in_episode string ep2
                    (@Episode_download Site.utils N "out/9520-naruto-02_vostfr.mp4"
                       BEST false None) s1)).
  destruct (@batch_download_stops_at_failing_episode Site.utils N "out" 5 BEST "t"%char
              Catalog.anime_state s0 s1 s2 [ep1] ep2 []
              ["out/9520-naruto-01_vostfr.mp4"] (FetchingErorr "Busy" 503))
    as (Hrun & _ & Hkept).
  - reflexivity.
  - vm_compute. reflexivity.
  - vm_compute. reflexivity.
  - vm_compute. reflexivity.
  - unfold run. rewrite Hrun. split; [reflexivity |].
    apply (Hkept ep1). left.
Defined.



(** ** The files of a batch download *)

Section BatchFiles.
Context `{Utils} `{Net}.

(** X17: After a batch download that succeeds, every path it returns names a
    file that exists, and every file that existed before still exists. *)
Theorem batch_download_leaves_every_returned_file (path : string) (pause : Z)
    (quality : Quality) (s s' : AnimeSt) (pathes : list string) :
  Anime_download path pause quality s = (Ok pathes, s') →
  (∀ p, p ∈ pathes → is_Some (files (a_world s') !! p))
  ∧ ∀ p, is_Some (files (a_world s) !! p) → is_Some (files (a_world s') !! p).
Proof.
  unfold Anime_download. unfold bind at 1.
  destruct (last_char path) as [c|]; [| discriminate].
  set (dir := if bool_decide (c = "/"%char) || bool_decide (c = "\"%char)
              then path else path +:+ "/").
  assert (Hdir : (if bool_decide (c = "/"%char) || bool_decide (c = "\"%char)
                  then ret path else ret (path +:+ "/")) s = (Ok dir, s)).
  { unfold dir. by destruct (_ || _). }
  rewrite Hdir. unfold bind.
  destruct (Anime_get_episodes None true false s) as [[episodes|e] s0] eqn:Heps;
    [| discriminate].
  destruct (quiet_Anime_get_episodes _ _ _ _ _ _ Heps) as [Hf0 _].
  intros Hrun.
  destruct (download_episodes_files _ _ _ _ _ _ _ _ Hrun) as [Hkeep Hnew].
  apply download_episodes_ok in Hrun as [-> _]. simpl. split.
  - intros p (episode & -> & Hin)%list_elem_of_fmap. by apply Hnew.
  - intros p Hp. apply Hkeep. simpl in Hf0. by rewrite Hf0.
Qed.
End BatchFiles.

Lemma batch_download_leaves_files_witness :
  let N := Site.net EmptyString in
  let run := @Anime_download Site.utils N "out" 5 BEST Site.anime_state in
  is_Some (files (a_world (snd run)) !! "out/9520-naruto-02_vostfr.mp4").
Proof.
  intros N run.
  destruct (@batch_download_leaves_every_returned_file Site.utils N "out" 5 BEST
              Site.anime_state (snd run)
              ["out/9520-naruto-01_vostfr.mp4"; "out/9520-naruto-02_vostfr.mp4"])
    as [Hnew _].
  - vm_compute. reflexivity.
  - apply Hnew. right. left.
Defined.
